(** * The many-to-one diode of go-diodes, sequentially

    A shallow embedding of [many_to_one.go]: the ring buffer written by
    [Set] and read by [TryNext], with the 64-bit cursors of the source and
    their wrap-around written out.

    The embedding is sequential: one call runs to completion before the next
    one starts, so the read-write mutex [mu] guards nothing and is left out.
    Atomic operations of [sync/atomic] become plain functions on the buffer.
    Calls that leave the engine are recorded in a trace: every
    [d.alerter.Alert(n)] and every [log.Println]. Go's [int] is the one of
    a 64-bit platform. *)

From Stdlib Require Import ZArith Lia String.
From stdpp Require Import base list.

Open Scope Z_scope.

(** ** Machine integers *)

(** [uint64] arithmetic wraps modulo [2^64]. *)
Definition uint64 (z : Z) : Z := z mod 2 ^ 64.

(** [^x] on a [uint64]: bitwise complement. *)
Definition not64 (x : Z) : Z := uint64 (Z.lnot x).

(** [int(x)] for [x : uint64] on a 64-bit platform: the same 64 bits read
    as a two's complement number. *)
Definition int_of_uint64 (x : Z) : Z := if x <? 2 ^ 63 then x else x - 2 ^ 64.

(** The largest value of Go's [int]. *)
Definition max_int : Z := 2 ^ 63 - 1.

(** ** Panics and results *)

Inductive panic : Type :=
| DivideByZero      (* integer divide by zero *)
| IndexOutOfRange   (* index out of range *)
| NilDereference    (* invalid memory address or nil pointer dereference *)
| LenOutOfRange.    (* makeslice: len out of range *)

(** A call returns, panics, or (for the retry loop of [Set]) is cut off by
    the fuel of the model. *)
Inductive result (A : Type) : Type :=
| Ok (a : A)
| Panic (p : panic)
| OutOfFuel.

Arguments Ok {A} a.
Arguments Panic {A} p.
Arguments OutOfFuel {A}.

(** Sequencing: a panic or the end of the fuel ends the call. *)
Definition bind {A B : Type} (m : result A) (f : A -> result B) : result B :=
  match m with
  | Ok a => f a
  | Panic p => Panic p
  | OutOfFuel => OutOfFuel
  end.

Notation "'let*' x ':=' m 'in' k" := (bind m (fun x => k))
  (at level 10, x pattern, m at level 100, k at level 200).

(** [x % n] on unsigned integers. *)
Definition umod (x n : Z) : result Z :=
  if n =? 0 then Panic DivideByZero else Ok (x mod n).

(** [s[i]] with Go's bounds check. *)
Definition index {A : Type} (s : list A) (i : Z) : result A :=
  if i <? 0 then Panic IndexOutOfRange
  else match s !! Z.to_nat i with
       | Some a => Ok a
       | None => Panic IndexOutOfRange
       end.

Definition len {A : Type} (s : list A) : Z := Z.of_nat (length s).

(** ** The trace of outside calls *)

Inductive event : Type :=
| Alert (missed : Z)        (* d.alerter.Alert(missed) *)
| Println (line : string).  (* log.Println(line) *)

Definition collision_line : string :=
  "Diode set collision: consider using a larger diode".

(** The alerter handed to the constructor; [AlertFunc_noop] is the
    [AlertFunc(func(int) {})] that replaces a nil one. *)
Inductive Alerter : Type :=
| AlertFunc_noop
| Given (id : nat).

Section Diode.

(** What a non-nil [GenericDataType] points to. *)
Context {T : Type}.

(** [GenericDataType] is a pointer: [None] is nil. *)
Definition GenericDataType : Type := option T.

Record bucket : Type := mkBucket {
  data : GenericDataType;
  seq : Z
}.

(** A non-nil [*bucket]: the allocation it came from, and what it points to.
    Buckets are never written after they are built, so the pointee travels
    with the pointer; two pointers are the same pointer when the allocations
    are the same. *)
Record bucket_ptr : Type := mkPtr {
  addr : nat;
  pointee : bucket
}.

(** An element of [buffer]: [None] is the nil pointer. *)
Definition slot : Type := option bucket_ptr.

Record ManyToOne : Type := mkManyToOne {
  writeIndex : Z;
  buffer : list slot;
  readIndex : Z;
  alerter : Alerter
}.

(** The world around the engine: the allocator and the trace. *)
Record runtime : Type := mkRuntime {
  next_addr : nat;
  events : list event
}.

Definition emit (e : event) (rt : runtime) : runtime :=
  {| next_addr := next_addr rt; events := events rt ++ [e] |}.

(** [&bucket{...}]: a fresh allocation. *)
Definition new_bucket (b : bucket) (rt : runtime) : bucket_ptr * runtime :=
  ({| addr := next_addr rt; pointee := b |},
   {| next_addr := S (next_addr rt); events := events rt |}).

Definition with_writeIndex (d : ManyToOne) (w : Z) : ManyToOne :=
  {| writeIndex := w; buffer := buffer d; readIndex := readIndex d;
     alerter := alerter d |}.

Definition with_buffer (d : ManyToOne) (b : list slot) : ManyToOne :=
  {| writeIndex := writeIndex d; buffer := b; readIndex := readIndex d;
     alerter := alerter d |}.

Definition with_readIndex (d : ManyToOne) (r : Z) : ManyToOne :=
  {| writeIndex := writeIndex d; buffer := buffer d; readIndex := r;
     alerter := alerter d |}.

(** ** sync/atomic *)

(** [atomic.AddUint64(&x, delta)]: the new value, which is also stored. *)
Definition AddUint64 (x delta : Z) : Z := uint64 (x + delta).

Definition LoadPointer (buf : list slot) (idx : Z) : result slot :=
  index buf idx.

(** Pointer equality. *)
Definition ptr_eqb (p q : slot) : bool :=
  match p, q with
  | None, None => true
  | Some a, Some b => Nat.eqb (addr a) (addr b)
  | _, _ => false
  end.

(** [atomic.CompareAndSwapPointer(&buf[idx], old, new)]: the buffer after
    the call and whether the swap happened. *)
Definition CompareAndSwapPointer (buf : list slot) (idx : Z) (old new : slot)
  : result (list slot * bool) :=
  let* cur := index buf idx in
  if ptr_eqb cur old then Ok (<[Z.to_nat idx := new]> buf, true)
  else Ok (buf, false).

(** ** NewManyToOne *)

(** [make([]unsafe.Pointer, size)] panics on a negative length. Lengths
    that the allocator cannot serve are not told apart here: memory is
    taken to be large enough. *)
Definition make_buffer (size : Z) : result (list slot) :=
  if size <? 0 then Panic LenOutOfRange
  else Ok (replicate (Z.to_nat size) None).

Definition NewManyToOne (size : Z) (alerter : option Alerter)
  : result ManyToOne :=
  let alerter := match alerter with
                 | None => AlertFunc_noop
                 | Some a => a
                 end in
  let* buf := make_buffer size in
  let d := {| writeIndex := 0; buffer := buf; readIndex := 0;
              alerter := alerter |} in
  Ok (with_writeIndex d (not64 (writeIndex d))).

(** ** Set *)

(** One turn of the [for] loop of [Set]: the value is stored and the call
    returns, or the turn ends in [continue]. *)
Inductive attempt : Type :=
| Stored (d : ManyToOne) (rt : runtime)
| Collision (d : ManyToOne) (rt : runtime).

(** The collision test of [Set]: [old] is not nil and
    [old.seq > writeIndex-uint64(len(d.buffer))]. *)
Definition in_range (old : slot) (writeIndex n : Z) : bool :=
  match old with
  | None => false
  | Some p => seq (pointee p) >? uint64 (writeIndex - n)
  end.

Definition Set_attempt (d : ManyToOne) (v : GenericDataType) (rt : runtime)
  : result attempt :=
  let writeIndex := AddUint64 (writeIndex d) 1 in
  let d := with_writeIndex d writeIndex in
  let* idx := umod writeIndex (len (buffer d)) in
  let* old := LoadPointer (buffer d) idx in
  if in_range old writeIndex (len (buffer d))
  then Ok (Collision d (emit (Println collision_line) rt))
  else
    let '(newBucket, rt) := new_bucket {| data := v; seq := writeIndex |} rt in
    let* (buf, swapped) :=
      CompareAndSwapPointer (buffer d) idx old (Some newBucket) in
    if swapped then Ok (Stored (with_buffer d buf) rt)
    else Ok (Collision d (emit (Println collision_line) rt)).

(** [Set]: the loop runs until a turn stores the value; [fuel] bounds the
    number of turns the model follows. *)
Fixpoint Set_ (fuel : nat) (d : ManyToOne) (v : GenericDataType) (rt : runtime)
  : result (ManyToOne * runtime) :=
  match fuel with
  | O => OutOfFuel
  | S fuel =>
      let* a := Set_attempt d v rt in
      match a with
      | Stored d rt => Ok (d, rt)
      | Collision d rt => Set_ fuel d v rt
      end
  end.

(** ** TryNext *)

(** The catch-up branch of [TryNext] (lines 106 to 112): the alerter is
    told, the read index jumps, and the slot is loaded again. *)
Definition catch_up (d : ManyToOne) (rt : runtime)
  : result (ManyToOne * runtime * Z * slot) :=
  let n := len (buffer d) in
  let dropped := uint64 (uint64 (uint64 (writeIndex d + 1) - readIndex d) - n) in
  let rt := emit (Alert (int_of_uint64 dropped)) rt in
  let d := with_readIndex d (uint64 (uint64 (writeIndex d + 1) - n)) in
  let* idx := umod (readIndex d) n in
  let* result := LoadPointer (buffer d) idx in
  Ok (d, rt, idx, result).

Definition TryNext (d : ManyToOne) (rt : runtime)
  : result (ManyToOne * runtime * (GenericDataType * bool)) :=
  let* idx := umod (readIndex d) (len (buffer d)) in
  let* result := LoadPointer (buffer d) idx in
  match result with
  | None => Ok (d, rt, (None, false))
  | Some p =>
      let* (d, rt, idx, result) :=
        if seq (pointee p) >? readIndex d then catch_up d rt
        else Ok (d, rt, idx, result) in
      let* (buf, _) := CompareAndSwapPointer (buffer d) idx None result in
      let d := with_buffer d buf in
      let d := with_readIndex d (uint64 (readIndex d + 1)) in
      match result with
      | None => Panic NilDereference
      | Some p => Ok (d, rt, (data (pointee p), true))
      end
  end.

(** ** Runs *)

Inductive op : Type :=
| OpSet (v : GenericDataType)
| OpTryNext.

(** A run: the calls of [ops] one after the other; the answers of the
    [TryNext] calls are collected in order. *)
Fixpoint run (fuel : nat) (ops : list op) (d : ManyToOne) (rt : runtime)
  : result (ManyToOne * runtime * list (GenericDataType * bool)) :=
  match ops with
  | [] => Ok (d, rt, [])
  | OpSet v :: ops =>
      let* (d, rt) := Set_ fuel d v rt in
      run fuel ops d rt
  | OpTryNext :: ops =>
      let* (d, rt, r) := TryNext d rt in
      let* (d, rt, rs) := run fuel ops d rt in
      Ok (d, rt, r :: rs)
  end.

(** The values handed to [Set] in a run, in order. *)
Fixpoint written (ops : list op) : list GenericDataType :=
  match ops with
  | [] => []
  | OpSet v :: ops => v :: written ops
  | OpTryNext :: ops => written ops
  end.

Definition rt0 : runtime := {| next_addr := O; events := [] |}.

(** A run on a fresh engine. *)
Definition run_new (fuel : nat) (size : Z) (a : option Alerter) (ops : list op)
  : result (ManyToOne * runtime * list (GenericDataType * bool)) :=
  let* d := NewManyToOne size a in
  run fuel ops d rt0.

(** ** Invariants of sequential runs *)

(** What slot [i] holds once the values [vs] have been written, in that
    order, to a buffer of [n] slots: nothing while no write had index [i],
    else the last write with that index. *)
Definition slot_holds (n : Z) (vs : list GenericDataType) (i : Z) (s : slot)
  : Prop :=
  match s with
  | None => len vs <= i
  | Some p =>
      seq (pointee p) mod n = i /\
      0 <= seq (pointee p) < len vs /\
      len vs <= seq (pointee p) + n /\
      vs !! Z.to_nat (seq (pointee p)) = Some (data (pointee p))
  end.

(** Every alert so far reported between one and [bound] values. *)
Definition alerts_within (bound : Z) (evs : list event) : Prop :=
  Forall (fun e => exists k, e = Alert (int_of_uint64 k) /\ 1 <= k <= bound) evs.

(** The state of an engine of capacity [n] after the writes [vs], with any
    reads between them, as long as the write index has not wrapped. *)
Record Inv (n : Z) (vs : list GenericDataType) (d : ManyToOne) (rt : runtime)
  : Prop := mkInv {
  inv_cap : 0 < n;
  inv_len : len (buffer d) = n;
  inv_count : len vs <= 2 ^ 64;
  inv_write : writeIndex d = uint64 (len vs - 1);
  inv_read : 0 <= readIndex d < 2 ^ 64;
  inv_slots : forall (i : nat) (s : slot),
      buffer d !! i = Some s -> slot_holds n vs (Z.of_nat i) s;
  inv_alerts : alerts_within (len vs - n) (events rt)
}.

(** Well-formed engines: a buffer that is not empty and whose length fits
    a [uint64], stored sequence numbers that fit a [uint64]. *)
Definition wf (d : ManyToOne) : Prop :=
  0 < len (buffer d) <= 2 ^ 64 /\
  forall (i : nat) (p : bucket_ptr),
    buffer d !! i = Some (Some p) -> seq (pointee p) < 2 ^ 64.

(** The states a sequential program can bring an engine to. *)
Inductive reachable : ManyToOne -> runtime -> Prop :=
| reach_new (size : Z) (a : option Alerter) (d : ManyToOne) (rt : runtime) :
    0 < size <= max_int ->
    NewManyToOne size a = Ok d ->
    reachable d rt
| reach_Set (fuel : nat) (v : GenericDataType) (d d' : ManyToOne)
    (rt rt' : runtime) :
    reachable d rt ->
    Set_ fuel d v rt = Ok (d', rt') ->
    reachable d' rt'
| reach_TryNext (d d' : ManyToOne) (rt rt' : runtime)
    (r : GenericDataType * bool) :
    reachable d rt ->
    TryNext d rt = Ok (d', rt', r) ->
    reachable d' rt'.

(** The number of loop turns after the first one that [Set] can need at
    most: the distance of the next sequence number to [len - 1], where the
    collision test cannot fire. *)
Definition turns_left (d : ManyToOne) : Z :=
  uint64 (len (buffer d) - 2 - writeIndex d).

End Diode.

Arguments bucket : clear implicits.
Arguments bucket_ptr : clear implicits.
Arguments slot : clear implicits.
Arguments ManyToOne : clear implicits.
Arguments GenericDataType : clear implicits.
Arguments op : clear implicits.
Arguments attempt : clear implicits.

(** ** Measures of a run *)



(** Where an answer of [TryNext] comes from: with [true], a value among
    [vs]; with [false], nil. *)
Definition answer_from {T : Type} (vs : list (GenericDataType T))
  (r : GenericDataType T * bool) : Prop :=
  if r.2 then In r.1 vs else r.1 = None.

(** A reader that keeps up: every write is followed by one read. *)
Fixpoint write_read_pairs {T : Type} (vs : list (GenericDataType T))
  : list (op T) :=
  match vs with
  | [] => []
  | v :: vs => OpSet v :: OpTryNext :: write_read_pairs vs
  end.

(** ** A run on numbers *)

(** Six writes tagged 0 to 5. *)
Definition six_writes : list (op Z) :=
  [OpSet (Some 0); OpSet (Some 1); OpSet (Some 2);
   OpSet (Some 3); OpSet (Some 4); OpSet (Some 5)].

Definition six_values : list (GenericDataType Z) :=
  [Some 0; Some 1; Some 2; Some 3; Some 4; Some 5].

(** The engine of capacity four after the six writes: the writer has lapped
    the reader, slots 0 and 1 were written twice. *)
Definition lapped_engine : ManyToOne Z :=
  {| writeIndex := 5;
     buffer :=
       [Some {| addr := 4; pointee := {| data := Some 4; seq := 4 |} |};
        Some {| addr := 5; pointee := {| data := Some 5; seq := 5 |} |};
        Some {| addr := 2; pointee := {| data := Some 2; seq := 2 |} |};
        Some {| addr := 3; pointee := {| data := Some 3; seq := 3 |} |}];
     readIndex := 0;
     alerter := AlertFunc_noop |}.

(** A fresh engine of capacity four. *)
Definition fresh_engine : ManyToOne Z :=
  {| writeIndex := 2 ^ 64 - 1;
     buffer := [None; None; None; None];
     readIndex := 0;
     alerter := AlertFunc_noop |}.

(** What the constructor hands back for capacity zero. *)
Definition empty_engine : ManyToOne Z :=
  {| writeIndex := 2 ^ 64 - 1;
     buffer := [];
     readIndex := 0;
     alerter := AlertFunc_noop |}.

(** The engine of capacity four after one write, one read and the six
    writes: seven writes in all, the read index at 1. *)
Definition mid_run_engine : ManyToOne Z :=
  {| writeIndex := 6;
     buffer :=
       [Some {| addr := 4; pointee := {| data := Some 3; seq := 4 |} |};
        Some {| addr := 5; pointee := {| data := Some 4; seq := 5 |} |};
        Some {| addr := 6; pointee := {| data := Some 5; seq := 6 |} |};
        Some {| addr := 3; pointee := {| data := Some 2; seq := 3 |} |}];
     readIndex := 1;
     alerter := AlertFunc_noop |}.

(** * Proofs *)

(** ** Arithmetic *)

Lemma uint64_range (z : Z) : 0 <= uint64 z < 2 ^ 64.
Proof. unfold uint64. apply Z.mod_pos_bound. lia. Qed.

Lemma uint64_small (z : Z) : 0 <= z < 2 ^ 64 -> uint64 z = z.
Proof. unfold uint64. intros H. apply Z.mod_small. exact H. Qed.

Lemma uint64_add_l (a b : Z) : uint64 (uint64 a + b) = uint64 (a + b).
Proof. unfold uint64. apply Zplus_mod_idemp_l. Qed.

Lemma uint64_sub_l (a b : Z) : uint64 (uint64 a - b) = uint64 (a - b).
Proof. unfold uint64. apply Zminus_mod_idemp_l. Qed.

Lemma uint64_sub_r (a b : Z) : uint64 (a - uint64 b) = uint64 (a - b).
Proof. unfold uint64. apply Zminus_mod_idemp_r. Qed.

Lemma int_of_uint64_small (k : Z) : 0 <= k < 2 ^ 63 -> int_of_uint64 k = k.
Proof.
  intros H. unfold int_of_uint64.
  destruct (Z.ltb_spec k (2 ^ 63)); [reflexivity | lia].
Qed.

(** Two numbers with the same remainder are equal or at least [n] apart. *)
Lemma same_residue_apart (n a b : Z) :
  0 < n -> a mod n = b mod n -> b < a -> b + n <= a.
Proof.
  intros Hn Hmod Hlt.
  pose proof (Z.div_mod a n ltac:(lia)) as Ha.
  pose proof (Z.div_mod b n ltac:(lia)) as Hb.
  assert (b / n < a / n) by nia.
  nia.
Qed.

(** ** Slices and atomics *)

Section Proofs.

Context {T : Type}.

Implicit Types (d : ManyToOne T) (rt : runtime) (buf : list (slot T)).
Implicit Types (vs : list (GenericDataType T)) (v : GenericDataType T).

Lemma umod_ok (x n : Z) : n <> 0 -> umod x n = Ok (x mod n).
Proof.
  intros Hn. unfold umod.
  destruct (Z.eqb_spec n 0); [contradiction | reflexivity].
Qed.

Lemma index_ok {A : Type} (s : list A) (i : Z) (a : A) :
  0 <= i -> s !! Z.to_nat i = Some a -> index s i = Ok a.
Proof.
  intros Hi Hs. unfold index.
  destruct (Z.ltb_spec i 0); [lia |]. rewrite Hs. reflexivity.
Qed.

Lemma slot_at buf (i : Z) :
  0 <= i < len buf -> exists s, buf !! Z.to_nat i = Some s.
Proof.
  intros Hi. unfold len in Hi.
  destruct (lookup_lt_is_Some_2 buf (Z.to_nat i)) as [s Hs]; [lia |].
  exists s. exact Hs.
Qed.

Lemma ptr_eqb_refl (s : slot T) : ptr_eqb s s = true.
Proof. destruct s as [p|]; simpl; [apply Nat.eqb_refl | reflexivity]. Qed.

(** A swap against the value just loaded goes through. *)
Lemma CompareAndSwapPointer_loaded buf (i : Z) (s new : slot T) :
  0 <= i -> buf !! Z.to_nat i = Some s ->
  CompareAndSwapPointer buf i s new = Ok (<[Z.to_nat i := new]> buf, true).
Proof.
  intros Hi Hs. unfold CompareAndSwapPointer.
  rewrite (index_ok _ _ _ Hi Hs). simpl. rewrite ptr_eqb_refl. reflexivity.
Qed.

(** ** Set on a run that has not wrapped *)

Lemma slot_holds_after_write (n : Z) vs v (i : nat) (s : slot T) :
  0 < n -> Z.of_nat i < n ->
  Z.of_nat i <> len vs mod n ->
  slot_holds n vs (Z.of_nat i) s ->
  slot_holds n (vs ++ [v]) (Z.of_nat i) s.
Proof.
  intros Hn Hi Hne Hs. unfold slot_holds, len in *.
  rewrite length_app. simpl.
  destruct s as [p|].
  - destruct Hs as (Hmod & Hrange & Hlast & Hval).
    repeat split; try lia.
    + destruct (Z.eq_dec (Z.of_nat (length vs)) (seq (pointee p) + n)) as [E|E];
        [| lia].
      exfalso. apply Hne. rewrite E.
      replace (seq (pointee p) + n) with (seq (pointee p) + 1 * n) by lia.
      rewrite Z_mod_plus_full. symmetry. exact Hmod.
    + rewrite lookup_app_l; [exact Hval | lia].
  - destruct (Z.eq_dec (Z.of_nat (length vs)) (Z.of_nat i)) as [E|E]; [| lia].
    exfalso. apply Hne. rewrite E. symmetry. apply Z.mod_small. lia.
Qed.

Lemma alerts_within_mono (a b : Z) (evs : list event) :
  a <= b -> alerts_within a evs -> alerts_within b evs.
Proof.
  intros Hab Ha. unfold alerts_within in *.
  eapply Forall_impl; [exact Ha |].
  intros e (k & He & Hk). exists k. split; [exact He | lia].
Qed.

(** On a run whose write index has not wrapped, the first turn of the loop
    stores the value: it takes the next sequence number, the count of the
    writes before it, and leaves the read index and the trace alone. *)
Lemma Set_attempt_inv (n : Z) vs d rt v :
  Inv n vs d rt -> len vs < 2 ^ 64 ->
  exists d' rt',
    Set_attempt d v rt = Ok (Stored d' rt') /\
    Inv n (vs ++ [v]) d' rt' /\
    writeIndex d' = len vs /\
    readIndex d' = readIndex d /\
    events rt' = events rt /\
    buffer d' =
      <[Z.to_nat (len vs mod n) :=
          Some {| addr := next_addr rt;
                  pointee := {| data := v; seq := len vs |} |}]> (buffer d).
Proof.
  intros [Hn Hlen Hcount Hw Hr Hslots Hal] Hm.
  assert (Hm0 : 0 <= len vs) by (unfold len; lia).
  assert (Hw' : AddUint64 (writeIndex d) 1 = len vs).
  { unfold AddUint64. rewrite Hw, uint64_add_l.
    replace (len vs - 1 + 1) with (len vs) by lia.
    apply uint64_small. lia. }
  pose proof (Z.mod_pos_bound (len vs) n Hn) as Hidx.
  destruct (slot_at (buffer d) (len vs mod n)) as [old Hold]; [lia |].
  assert (Hfree : in_range old (len vs) n = false).
  { pose proof (Hslots _ _ Hold) as Hs. rewrite Z2Nat.id in Hs by lia.
    destruct old as [p|]; [| reflexivity]. simpl.
    destruct Hs as (Hmod & Hrange & Hlast & Hval).
    pose proof (same_residue_apart n (len vs) (seq (pointee p)) Hn
                  (eq_sym Hmod) ltac:(lia)) as Hgap.
    rewrite uint64_small by lia.
    destruct (Z.gtb_spec (seq (pointee p)) (len vs - n)); [lia | reflexivity]. }
  eexists _, _. split.
  { unfold Set_attempt. rewrite Hw'. simpl. rewrite Hlen.
    rewrite umod_ok by lia. simpl.
    unfold LoadPointer. rewrite (index_ok _ (len vs mod n) _ ltac:(lia) Hold). simpl.
    rewrite Hfree.
    rewrite (CompareAndSwapPointer_loaded _ (len vs mod n) _ _ ltac:(lia) Hold).
    simpl.
    reflexivity. }
  split; [| simpl; repeat split; reflexivity].
  constructor; simpl; try assumption.
  - unfold len in *. rewrite length_insert. exact Hlen.
  - unfold len in *. rewrite length_app. simpl. lia.
  - unfold len in *. rewrite length_app. simpl.
    replace (Z.of_nat (length vs + 1) - 1) with (Z.of_nat (length vs)) by lia.
    symmetry. apply uint64_small. lia.
  - intros i s Hi.
    assert (Hin : Z.of_nat i < n).
    { apply lookup_lt_Some in Hi. rewrite length_insert in Hi.
      unfold len in Hlen. lia. }
    destruct (Nat.eq_dec i (Z.to_nat (len vs mod n))) as [E|E].
    + subst i. rewrite list_lookup_insert_eq in Hi
        by (unfold len in Hlen; lia).
      injection Hi as <-. rewrite Z2Nat.id by lia. simpl.
      unfold len. rewrite length_app. simpl. repeat split; try lia.
      rewrite Nat2Z.id, lookup_app_r by lia.
      rewrite Nat.sub_diag. reflexivity.
    + rewrite list_lookup_insert_ne in Hi by congruence.
      apply slot_holds_after_write; try assumption; [lia |].
      apply Hslots. exact Hi.
  - apply (alerts_within_mono (len vs - n)); [| exact Hal].
    unfold len. rewrite length_app. simpl. lia.
Qed.

(** ** TryNext, case by case *)

Lemma lookup_nonempty buf (i : nat) (s : slot T) :
  buf !! i = Some s -> 0 < len buf.
Proof. intros H. apply lookup_lt_Some in H. unfold len. lia. Qed.

(** The slot under the read index is nil: nothing is read. *)
Lemma TryNext_nil d rt :
  buffer d !! Z.to_nat (readIndex d mod len (buffer d)) = Some None ->
  TryNext d rt = Ok (d, rt, (None, false)).
Proof.
  intros Hs. pose proof (lookup_nonempty _ _ _ Hs) as Hn.
  pose proof (Z.mod_pos_bound (readIndex d) _ Hn) as Hidx.
  unfold TryNext. rewrite umod_ok by lia. simpl.
  unfold LoadPointer.
  rewrite (index_ok (buffer d) (readIndex d mod len (buffer d)) _ ltac:(lia) Hs).
  reflexivity.
Qed.

(** The slot under the read index holds a sequence number that is not
    ahead of the read index: its value is handed out, the read index moves
    by one, and nothing else changes. *)
Lemma TryNext_plain d rt (p : bucket_ptr T) :
  buffer d !! Z.to_nat (readIndex d mod len (buffer d)) = Some (Some p) ->
  seq (pointee p) <= readIndex d ->
  TryNext d rt =
    Ok (with_readIndex d (uint64 (readIndex d + 1)), rt,
        (data (pointee p), true)).
Proof.
  intros Hs Hseq. pose proof (lookup_nonempty _ _ _ Hs) as Hn.
  pose proof (Z.mod_pos_bound (readIndex d) _ Hn) as Hidx.
  unfold TryNext. rewrite umod_ok by lia. simpl.
  unfold LoadPointer.
  rewrite (index_ok (buffer d) (readIndex d mod len (buffer d)) _ ltac:(lia) Hs).
  simpl.
  destruct (Z.gtb_spec (seq (pointee p)) (readIndex d)); [lia |]. simpl.
  unfold CompareAndSwapPointer.
  rewrite (index_ok (buffer d) (readIndex d mod len (buffer d)) _ ltac:(lia) Hs).
  reflexivity.
Qed.

(** The slot under the read index is ahead of it: the reader was lapped.
    On a run that has not wrapped, the alerter hears the number of values
    between the read index and the oldest value still in the buffer, and
    that value is handed out. *)
Lemma TryNext_lapped (n : Z) vs d rt (p : bucket_ptr T) :
  Inv n vs d rt ->
  buffer d !! Z.to_nat (readIndex d mod n) = Some (Some p) ->
  readIndex d < seq (pointee p) ->
  exists v,
    vs !! Z.to_nat (len vs - n) = Some v /\
    1 <= len vs - n - readIndex d /\
    TryNext d rt =
      Ok (with_readIndex d (uint64 (len vs - n + 1)),
          emit (Alert (int_of_uint64 (len vs - n - readIndex d))) rt,
          (v, true)).
Proof.
  intros [Hn Hlen Hcount Hw Hr Hslots Hal] Hs Hlt.
  pose proof (Z.mod_pos_bound (readIndex d) n Hn) as Hidx.
  pose proof (Hslots _ _ Hs) as Hp. rewrite Z2Nat.id in Hp by lia.
  destruct Hp as (Hmod & Hrange & Hlast & Hval).
  pose proof (same_residue_apart n _ _ Hn Hmod Hlt) as Hgap.
  (* the slot the read index jumps to *)
  pose proof (Z.mod_pos_bound (len vs - n) n Hn) as Hidx'.
  destruct (slot_at (buffer d) ((len vs - n) mod n)) as [s' Hs']; [lia |].
  pose proof (Hslots _ _ Hs') as Hp'. rewrite Z2Nat.id in Hp' by lia.
  destruct s' as [p'|]; simpl in Hp'; [| lia].
  destruct Hp' as (Hmod' & Hrange' & Hlast' & Hval').
  assert (Hseq' : seq (pointee p') = len vs - n).
  { destruct (Z.eq_dec (seq (pointee p')) (len vs - n)) as [E|E]; [exact E |].
    pose proof (same_residue_apart n (seq (pointee p')) (len vs - n) Hn
                  Hmod' ltac:(lia)). lia. }
  exists (data (pointee p')). split; [rewrite <- Hseq'; exact Hval' |].
  split; [lia |].
  assert (Hw1 : uint64 (writeIndex d + 1) = uint64 (len vs)).
  { rewrite Hw, uint64_add_l. f_equal. lia. }
  unfold TryNext. rewrite Hlen, umod_ok by lia. simpl.
  unfold LoadPointer.
  rewrite (index_ok (buffer d) (readIndex d mod n) _ ltac:(lia) Hs). simpl.
  destruct (Z.gtb_spec (seq (pointee p)) (readIndex d)); [| lia].
  unfold catch_up. rewrite Hlen, Hw1. simpl.
  rewrite !uint64_sub_l.
  replace (uint64 (len vs) - readIndex d - n)
    with (uint64 (len vs) - (readIndex d + n)) by lia.
  rewrite uint64_sub_l.
  replace (uint64 (len vs - (readIndex d + n)))
    with (len vs - n - readIndex d) by (rewrite uint64_small; lia).
  rewrite (uint64_small (len vs - n)) by lia.
  rewrite umod_ok by lia. simpl. unfold LoadPointer.
  rewrite (index_ok (buffer d) ((len vs - n) mod n) _ ltac:(lia) Hs'). simpl.
  unfold CompareAndSwapPointer.
  rewrite (index_ok (buffer d) ((len vs - n) mod n) _ ltac:(lia) Hs'). simpl.
  reflexivity.
Qed.

(** A read on a run that has not wrapped returns, and keeps the
    invariant, the buffer and the write index. *)
Lemma TryNext_inv (n : Z) vs d rt :
  Inv n vs d rt ->
  exists d' rt' r,
    TryNext d rt = Ok (d', rt', r) /\
    Inv n vs d' rt' /\
    buffer d' = buffer d /\
    writeIndex d' = writeIndex d.
Proof.
  intros HI. pose proof HI as [Hn Hlen Hcount Hw Hr Hslots Hal].
  pose proof (Z.mod_pos_bound (readIndex d) n Hn) as Hidx.
  destruct (slot_at (buffer d) (readIndex d mod n)) as [s Hs]; [lia |].
  destruct s as [p|].
  - destruct (Z_lt_le_dec (readIndex d) (seq (pointee p))) as [Hlt|Hle].
    + destruct (TryNext_lapped n vs d rt p HI Hs Hlt) as (v & Hv & Hk & Heq).
      eexists _, _, _. split; [exact Heq |].
      split; [| split; reflexivity].
      constructor; simpl; try assumption.
      * apply uint64_range.
      * unfold alerts_within. apply Forall_app. split; [exact Hal |].
        constructor; [| constructor].
        exists (len vs - n - readIndex d). split; [reflexivity | lia].
    + rewrite <- Hlen in Hs.
      eexists _, _, _. split; [exact (TryNext_plain d rt p Hs Hle) |].
      split; [| split; reflexivity].
      constructor; simpl; try assumption. apply uint64_range.
  - rewrite <- Hlen in Hs.
    eexists _, _, _. split; [exact (TryNext_nil d rt Hs) |].
    split; [exact HI | split; reflexivity].
Qed.

(** ** The fresh engine *)

Lemma NewManyToOne_ok (size : Z) (a : option Alerter) :
  0 <= size ->
  NewManyToOne (T:=T) size a =
    Ok {| writeIndex := 2 ^ 64 - 1;
          buffer := replicate (Z.to_nat size) None;
          readIndex := 0;
          alerter := match a with None => AlertFunc_noop | Some x => x end |}.
Proof.
  intros Hs. unfold NewManyToOne, make_buffer.
  destruct (Z.ltb_spec size 0); [lia |]. reflexivity.
Qed.

Lemma NewManyToOne_inv (size : Z) (a : option Alerter) d :
  0 < size -> NewManyToOne size a = Ok d -> Inv size [] d rt0.
Proof.
  intros Hs Hd. rewrite NewManyToOne_ok in Hd by lia.
  injection Hd as <-. constructor; cbn [writeIndex buffer readIndex events rt0].
  - exact Hs.
  - unfold len. rewrite length_replicate. lia.
  - unfold len. simpl. lia.
  - reflexivity.
  - lia.
  - intros i s Hi. apply lookup_replicate in Hi as [-> _].
    unfold slot_holds, len. simpl. lia.
  - constructor.
Qed.

(** ** Runs that have not wrapped *)

Lemma Set_inv (fuel : nat) (n : Z) vs d rt v :
  Inv n vs d rt -> len vs < 2 ^ 64 ->
  exists d' rt',
    Set_ (S fuel) d v rt = Ok (d', rt') /\
    Inv n (vs ++ [v]) d' rt' /\
    writeIndex d' = len vs /\
    readIndex d' = readIndex d /\
    events rt' = events rt /\
    buffer d' =
      <[Z.to_nat (len vs mod n) :=
          Some {| addr := next_addr rt;
                  pointee := {| data := v; seq := len vs |} |}]> (buffer d).
Proof.
  intros HI Hm.
  destruct (Set_attempt_inv n vs d rt v HI Hm) as (d' & rt' & Heq & Hrest).
  exists d', rt'. split; [| exact Hrest].
  simpl. rewrite Heq. reflexivity.
Qed.

Lemma len_app {A : Type} (l k : list A) : len (l ++ k) = len l + len k.
Proof. unfold len. rewrite length_app. lia. Qed.

Lemma len_nonneg {A : Type} (l : list A) : 0 <= len l.
Proof. unfold len. lia. Qed.

Lemma run_inv (fuel : nat) (n : Z) (ops : list (op T)) :
  forall vs d rt,
    Inv n vs d rt -> len vs + len (written ops) <= 2 ^ 64 ->
    exists d' rt' rs,
      run (S fuel) ops d rt = Ok (d', rt', rs) /\
      Inv n (vs ++ written ops) d' rt'.
Proof.
  induction ops as [| [v|] ops IH]; intros vs d rt HI Hm.
  - exists d, rt, []. rewrite app_nil_r. split; [reflexivity | exact HI].
  - change (written (OpSet v :: ops)) with (v :: written ops) in *.
    change (len (v :: written ops)) with (len ([v] ++ written ops)) in Hm.
    rewrite len_app in Hm. change (len [v]) with 1 in Hm.
    pose proof (len_nonneg (written ops)).
    destruct (Set_inv fuel n vs d rt v HI ltac:(lia))
      as (d1 & rt1 & Heq & HI1 & _).
    destruct (IH (vs ++ [v]) d1 rt1 HI1) as (d' & rt' & rs & Hrun & HI').
    { rewrite len_app. change (len [v]) with 1. lia. }
    exists d', rt', rs. split.
    + change (run (S fuel) (OpSet v :: ops) d rt)
        with (let* (d, rt) := Set_ (S fuel) d v rt in run (S fuel) ops d rt).
      rewrite Heq. exact Hrun.
    + rewrite <- app_assoc in HI'. exact HI'.
  - change (written (OpTryNext :: ops)) with (written ops) in *.
    destruct (TryNext_inv n vs d rt HI) as (d1 & rt1 & r & Heq & HI1 & _).
    destruct (IH vs d1 rt1 HI1 Hm) as (d' & rt' & rs & Hrun & HI').
    exists d', rt', (r :: rs). split; [| exact HI'].
    simpl. rewrite Heq. simpl. rewrite Hrun. reflexivity.
Qed.

Lemma run_app (fuel : nat) (ops1 ops2 : list (op T)) :
  forall d rt,
    run fuel (ops1 ++ ops2) d rt =
      let* (d1, rt1, rs1) := run fuel ops1 d rt in
      let* (d2, rt2, rs2) := run fuel ops2 d1 rt1 in
      Ok (d2, rt2, rs1 ++ rs2).
Proof.
  induction ops1 as [| [v|] ops1 IH]; intros d rt; simpl.
  - destruct (run fuel ops2 d rt) as [[[d2 rt2] rs2]| |]; reflexivity.
  - destruct (Set_ fuel d v rt) as [[d1 rt1]| |]; simpl; [| reflexivity ..].
    apply IH.
  - destruct (TryNext d rt) as [[[d1 rt1] r]| |]; simpl; [| reflexivity ..].
    rewrite IH.
    destruct (run fuel ops1 d1 rt1) as [[[d2 rt2] rs2]| |]; simpl;
      [| reflexivity ..].
    destruct (run fuel ops2 d2 rt2) as [[[d3 rt3] rs3]| |]; reflexivity.
Qed.

(** Writes alone: no answer, no event, and the read index stays. *)
Lemma run_writes (fuel : nat) (n : Z) (ws : list (GenericDataType T)) :
  forall vs d rt,
    Inv n vs d rt -> len vs + len ws <= 2 ^ 64 ->
    exists d' rt',
      run (S fuel) (map OpSet ws) d rt = Ok (d', rt', []) /\
      Inv n (vs ++ ws) d' rt' /\
      readIndex d' = readIndex d /\
      events rt' = events rt.
Proof.
  induction ws as [| v ws IH]; intros vs d rt HI Hm.
  - exists d, rt. rewrite app_nil_r.
    split; [reflexivity |]. split; [exact HI |]. split; reflexivity.
  - change (len (v :: ws)) with (len ([v] ++ ws)) in Hm.
    rewrite len_app in Hm. change (len [v]) with 1 in Hm.
    pose proof (len_nonneg ws).
    destruct (Set_inv fuel n vs d rt v HI ltac:(lia))
      as (d1 & rt1 & Heq & HI1 & _ & Hr1 & He1 & _).
    destruct (IH (vs ++ [v]) d1 rt1 HI1)
      as (d' & rt' & Hrun & HI' & Hr' & He').
    { rewrite len_app. change (len [v]) with 1. lia. }
    exists d', rt'. split; [| split; [| split]].
    + change (run (S fuel) (map OpSet (v :: ws)) d rt)
        with (let* (d, rt) := Set_ (S fuel) d v rt in
              run (S fuel) (map OpSet ws) d rt).
      rewrite Heq. exact Hrun.
    + rewrite <- app_assoc in HI'. exact HI'.
    + congruence.
    + congruence.
Qed.

End Proofs.

(** * The diode's properties *)

(** ** Reads *)

(** C7. Empty read: when the slot under the read index is nil, and so on
    any read before the first write, [TryNext] answers [(nil, false)] and
    leaves the engine, its read index included, and the trace as they are. *)
Theorem TryNext_empty_read {T : Type} (d : ManyToOne T) (rt : runtime) :
  buffer d !! Z.to_nat (readIndex d mod len (buffer d)) = Some None ->
  TryNext d rt = Ok (d, rt, (None, false)).
Proof. apply TryNext_nil. Qed.

Lemma TryNext_empty_read_fresh :
  NewManyToOne 4 None = Ok fresh_engine /\
  TryNext fresh_engine rt0 = Ok (fresh_engine, rt0, (None, false)).
Proof.
  split; [reflexivity |].
  apply (TryNext_empty_read fresh_engine rt0). reflexivity.
Defined.

Section Frame.

Context {T : Type}.

Lemma catch_up_loaded (d d1 : ManyToOne T) (rt rt1 : runtime) (idx1 : Z)
  (res1 : slot T) :
  catch_up d rt = Ok (d1, rt1, idx1, res1) ->
  buffer d1 = buffer d /\ index (buffer d) idx1 = Ok res1.
Proof.
  unfold catch_up. intros H.
  destruct (umod _ _) as [i| |]; simpl in H; try discriminate.
  unfold LoadPointer in H. simpl in H.
  destruct (index (buffer d) i) as [s| |] eqn:E; simpl in H; try discriminate.
  injection H as <- <- <- <-. split; [reflexivity | exact E].
Qed.

(** The swap of [TryNext] expects nil and offers what the slot holds: it
    changes nothing. *)
Lemma CompareAndSwapPointer_nil_loaded (buf buf' : list (slot T)) (i : Z)
  (s : slot T) (b : bool) :
  index buf i = Ok s ->
  CompareAndSwapPointer buf i None s = Ok (buf', b) ->
  buf' = buf.
Proof.
  unfold CompareAndSwapPointer. intros Hi H. rewrite Hi in H. simpl in H.
  destruct s as [p|]; simpl in H.
  - injection H as <- _. reflexivity.
  - injection H as <- _. apply list_insert_id.
    unfold index in Hi. destruct (i <? 0); [discriminate |].
    destruct (buf !! Z.to_nat i) as [s|]; [| discriminate].
    injection Hi as ->. reflexivity.
Qed.

Lemma TryNext_buffer (d d' : ManyToOne T) (rt rt' : runtime)
  (r : GenericDataType T * bool) :
  TryNext d rt = Ok (d', rt', r) ->
  buffer d' = buffer d /\ writeIndex d' = writeIndex d.
Proof.
  unfold TryNext. intros H.
  destruct (umod _ _) as [i| |]; simpl in H; try discriminate.
  unfold LoadPointer in H.
  destruct (index (buffer d) i) as [[p|]| |] eqn:E; simpl in H;
    try discriminate.
  2: { injection H as <- _ _. split; reflexivity. }
  destruct (seq (pointee p) >? readIndex d).
  - destruct (catch_up d rt) as [[[[d1 rt1] i1] res1]| |] eqn:Ec;
      simpl in H; try discriminate.
    assert (Hw : writeIndex d1 = writeIndex d).
    { unfold catch_up in Ec.
      destruct (umod _ _) as [j| |]; simpl in Ec; try discriminate.
      destruct (LoadPointer _ _) as [s| |]; simpl in Ec; try discriminate.
      injection Ec as <- _ _ _. reflexivity. }
    apply catch_up_loaded in Ec as [Hb Hi]. rewrite <- Hb in Hi.
    destruct (CompareAndSwapPointer (buffer d1) i1 None res1)
      as [[buf b]| |] eqn:Es; simpl in H; try discriminate.
    apply (CompareAndSwapPointer_nil_loaded _ _ _ _ _ Hi) in Es. subst buf.
    destruct res1 as [p1|]; [| discriminate].
    injection H as <- _ _. simpl. split; [exact Hb | exact Hw].
  - simpl in H.
    destruct (CompareAndSwapPointer (buffer d) i None (Some p))
      as [[buf b]| |] eqn:Es; simpl in H; try discriminate.
    apply (CompareAndSwapPointer_nil_loaded _ _ _ _ _ E) in Es. subst buf.
    injection H as <- _ _. split; reflexivity.
Qed.

End Frame.

(** C10. Reads leave the buffer unchanged: after a [TryNext] that
    returns, a catch-up read included, every slot holds what it held before
    the call, the slot just read too. *)
Theorem TryNext_keeps_buffer {T : Type} (d d' : ManyToOne T)
  (rt rt' : runtime) (r : GenericDataType T * bool) :
  TryNext d rt = Ok (d', rt', r) -> buffer d' = buffer d.
Proof. intros H. apply TryNext_buffer in H as [Hb _]. exact Hb. Qed.

Lemma TryNext_keeps_buffer_lapped :
  TryNext lapped_engine rt0 =
    Ok (with_readIndex lapped_engine 3,
        {| next_addr := 0; events := [Alert 2] |}, (Some 2, true)) /\
  buffer (with_readIndex lapped_engine 3) = buffer lapped_engine.
Proof.
  split; [reflexivity |].
  apply (TryNext_keeps_buffer lapped_engine (with_readIndex lapped_engine 3)
           rt0 {| next_addr := 0; events := [Alert 2] |} (Some 2, true)).
  reflexivity.
Defined.

(** C2. No re-delivery after exhaustion does not hold of this code: with
    capacity four and six writes tagged 0 to 5, the first four reads hand
    out 2, 3, 4 and 5, and the fifth read, with nothing written in between,
    answers [true] and hands out the value tagged 2 a second time. *)
Theorem TryNext_redelivers :
  exists d rt,
    run_new 1 4 None (six_writes ++ replicate 5 OpTryNext) =
      Ok (d, rt,
          [(Some 2, true); (Some 3, true); (Some 4, true); (Some 5, true);
           (Some 2, true)]) /\
    readIndex d = 7 /\ writeIndex d = 5 /\ events rt = [Alert 2].
Proof. eexists _, _. vm_compute. repeat split; reflexivity. Qed.

(** ** Construction *)

(** C5, as the code has it: a negative capacity makes the constructor
    panic; capacity zero gives an engine with an empty buffer, on which
    every [Set] and every [TryNext] panics on the division by the length. *)
Theorem NewManyToOne_invalid_size {T : Type} (size : Z) (a : option Alerter) :
  size <= 0 ->
  (size < 0 /\ NewManyToOne (T:=T) size a = Panic LenOutOfRange) \/
  (size = 0 /\
   exists d : ManyToOne T,
     NewManyToOne size a = Ok d /\ buffer d = [] /\
     forall (fuel : nat) (v : GenericDataType T) (rt : runtime),
       Set_ (S fuel) d v rt = Panic DivideByZero /\
       TryNext d rt = Panic DivideByZero).
Proof.
  intros Hs. destruct (Z_lt_le_dec size 0) as [Hneg|Hnn].
  - left. split; [exact Hneg |].
    unfold NewManyToOne, make_buffer.
    destruct (Z.ltb_spec size 0); [reflexivity | lia].
  - right. assert (size = 0) as -> by lia. split; [reflexivity |].
    eexists. split; [reflexivity |]. split; [reflexivity |].
    intros fuel v rt. split; reflexivity.
Qed.

Lemma NewManyToOne_invalid_size_negative :
  -3 <= 0 /\ NewManyToOne (T:=Z) (-3) None = Panic LenOutOfRange.
Proof.
  split; [lia |].
  destruct (NewManyToOne_invalid_size (T:=Z) (-3) None ltac:(lia))
    as [[_ H]|[H _]]; [exact H | discriminate H].
Defined.

(** C5 as the specification words it fails for capacity zero: the
    constructor returns an engine. *)
Lemma NewManyToOne_zero_returns :
  NewManyToOne 0 None = Ok empty_engine /\
  ~ (forall size : Z, size <= 0 ->
       exists p, NewManyToOne (T:=Z) size None = Panic p).
Proof.
  split; [reflexivity |].
  intros H. destruct (H 0 ltac:(lia)) as [p Hp]. discriminate Hp.
Qed.

(** ** Writes followed by reads *)

Section Sequences.

Context {T : Type}.

Implicit Types (d : ManyToOne T) (rt : runtime).
Implicit Types (vs : list (GenericDataType T)).

(** A fresh engine after the writes [vs]. *)
Lemma new_then_writes (fuel : nat) (n : Z) (a : option Alerter) vs :
  0 < n -> len vs <= 2 ^ 64 ->
  exists d0 d1 rt1,
    NewManyToOne n a = Ok d0 /\
    run (S fuel) (map OpSet vs) d0 rt0 = Ok (d1, rt1, []) /\
    Inv n vs d1 rt1 /\ readIndex d1 = 0 /\ events rt1 = [].
Proof.
  intros Hn Hm.
  pose proof (NewManyToOne_ok (T:=T) n a ltac:(lia)) as Hnew.
  pose proof (NewManyToOne_inv n a _ Hn Hnew) as HI0.
  destruct (run_writes fuel n vs [] _ rt0 HI0)
    as (d1 & rt1 & Hrun & HI1 & Hr1 & He1).
  { change (len (A:=GenericDataType T) []) with 0. lia. }
  eexists _, d1, rt1. split; [exact Hnew |].
  split; [exact Hrun |]. split; [exact HI1 |]. split; assumption.
Qed.

(** Reads that follow the writes one by one hand out the values in the
    order they were written. *)
Lemma run_reads_in_order (fuel : nat) (n : Z) vs (k : nat) :
  forall d rt,
    Inv n vs d rt -> len vs <= n -> len vs < 2 ^ 64 ->
    readIndex d + Z.of_nat k = len vs ->
    exists d',
      run fuel (replicate k OpTryNext) d rt =
        Ok (d', rt, map (fun v => (v, true)) (drop (Z.to_nat (readIndex d)) vs)).
Proof.
  induction k as [| k IH]; intros d rt HI Hcap Hm Hk.
  - exists d. simpl. rewrite drop_ge by (unfold len in Hk; lia). reflexivity.
  - pose proof HI as [Hn Hlen Hcount Hw Hr Hslots Hal].
    assert (Hmod : readIndex d mod n = readIndex d)
      by (apply Z.mod_small; lia).
    destruct (slot_at (buffer d) (readIndex d)) as [s Hs]; [lia |].
    pose proof (Hslots _ _ Hs) as Hp. rewrite Z2Nat.id in Hp by lia.
    destruct s as [p|]; simpl in Hp; [| lia].
    destruct Hp as (Hpm & Hrange & Hlast & Hval).
    rewrite Z.mod_small in Hpm by lia.
    assert (Hplain : TryNext d rt =
              Ok (with_readIndex d (uint64 (readIndex d + 1)), rt,
                  (data (pointee p), true))).
    { apply TryNext_plain; [| lia]. rewrite Hlen, Hmod. exact Hs. }
    destruct (TryNext_inv n vs d rt HI) as (d1 & rt1 & r & Heq & HI1 & _).
    rewrite Hplain in Heq. injection Heq as <- <- <-.
    rewrite uint64_small in HI1, Hplain by lia.
    destruct (IH _ rt HI1 Hcap Hm) as (d' & Hrun); [simpl; lia |].
    exists d'. simpl. rewrite Hplain. simpl. rewrite Hrun. simpl.
    rewrite Hpm in Hval.
    rewrite (drop_S vs _ (Z.to_nat (readIndex d)) Hval). simpl.
    replace (Z.to_nat (readIndex d + 1)) with (S (Z.to_nat (readIndex d)))
      by lia.
    reflexivity.
Qed.

End Sequences.

(** C1. Overrun accounting: on a fresh engine of capacity [n], after
    [m > n] writes and no read, one [TryNext] answers [true] with the value
    written at sequence [m - n], and the alerter is called once in the whole
    run, with [m - n]. The write index must not have wrapped ([m <= 2^64])
    and the count must fit Go's [int] ([m - n < 2^63]). *)
Theorem overrun_accounting {T : Type} (fuel : nat) (n : Z)
  (a : option Alerter) (vs : list (GenericDataType T)) :
  1 <= n <= max_int ->
  n < len vs <= 2 ^ 64 ->
  len vs - n < 2 ^ 63 ->
  exists d rt v,
    vs !! Z.to_nat (len vs - n) = Some v /\
    run_new (S fuel) n a (map OpSet vs ++ [OpTryNext]) = Ok (d, rt, [(v, true)]) /\
    events rt = [Alert (len vs - n)].
Proof.
  intros Hn Hm Hint.
  destruct (new_then_writes fuel n a vs ltac:(lia) ltac:(lia))
    as (d0 & d1 & rt1 & Hnew & Hrun & HI & Hr & He).
  pose proof HI as [_ Hlen _ _ _ Hslots _].
  destruct (slot_at (buffer d1) (readIndex d1 mod n)) as [s Hs].
  { rewrite Hr, Hlen. rewrite Z.mod_0_l by lia. lia. }
  pose proof (Hslots _ _ Hs) as Hp.
  rewrite Hr, Z.mod_0_l, Z2Nat.id in Hp by lia.
  destruct s as [p|]; simpl in Hp; [| lia].
  destruct (TryNext_lapped n vs d1 rt1 p HI Hs ltac:(lia))
    as (v & Hv & _ & Hread).
  eexists _, _, v. split; [exact Hv |].
  unfold run_new. rewrite Hnew. simpl. rewrite run_app, Hrun. simpl.
  rewrite Hread. simpl. split; [reflexivity |].
  simpl. rewrite He, Hr, Z.sub_0_r, int_of_uint64_small by lia. reflexivity.
Qed.

Lemma overrun_accounting_six_writes :
  exists d rt v,
    six_values !! Z.to_nat (len six_values - 4) = Some v /\
    run_new 1 4 None (map OpSet six_values ++ [OpTryNext])
      = Ok (d, rt, [(v, true)]) /\
    events rt = [Alert (len six_values - 4)].
Proof.
  apply (overrun_accounting 0 4 None six_values);
    vm_compute; repeat split; congruence.
Defined.

(** C3. FIFO under capacity: on a fresh engine of capacity [n], after
    [k <= n] writes and no read, [k] calls of [TryNext] hand out the written
    values in the order of the writes, each with [true], and the trace of
    the run is empty: the alerter is never called. *)
Theorem fifo_under_capacity {T : Type} (fuel : nat) (n : Z)
  (a : option Alerter) (vs : list (GenericDataType T)) :
  1 <= n <= max_int ->
  len vs <= n ->
  exists d rt,
    run_new (S fuel) n a (map OpSet vs ++ replicate (length vs) OpTryNext) =
      Ok (d, rt, map (fun v => (v, true)) vs) /\
    events rt = [].
Proof.
  intros Hn Hk. unfold max_int in Hn.
  destruct (new_then_writes fuel n a vs ltac:(lia) ltac:(lia))
    as (d0 & d1 & rt1 & Hnew & Hrun & HI & Hr & He).
  destruct (run_reads_in_order (S fuel) n vs (length vs) d1 rt1 HI Hk
              ltac:(lia)) as (d' & Hreads).
  { rewrite Hr. reflexivity. }
  exists d', rt1. split; [| exact He].
  unfold run_new. rewrite Hnew. simpl. rewrite run_app, Hrun. simpl.
  rewrite Hreads, Hr. reflexivity.
Qed.

Lemma fifo_under_capacity_three_of_four :
  exists d rt,
    run_new 1 4 None
      (map OpSet [Some 7; Some 8; Some 9] ++ replicate 3 OpTryNext) =
      Ok (d, rt, [(Some 7, true); (Some 8, true); (Some 9, true)]) /\
    events rt = [].
Proof.
  apply (fifo_under_capacity 0 4 None [Some 7; Some 8; Some 9]);
    vm_compute; repeat split; congruence.
Defined.

(** ** Any run of writes and reads *)

(** C4. Slot invariant: after any run of [Set] and [TryNext] on a fresh
    engine of capacity [n] (with at most [2^64] writes, so that the write
    index has not wrapped), a slot is nil only while no write had its index,
    and otherwise holds the sequence number and the value of the last write
    whose sequence number is its index modulo [n]: the stored sequence
    number is congruent to the index and is the largest such number handed
    out so far. The write with sequence number [j] is the one that stored
    the [j]-th value of the run, counted from zero. *)
Theorem slot_invariant {T : Type} (fuel : nat) (n : Z) (a : option Alerter)
  (ops : list (op T)) :
  1 <= n <= max_int ->
  len (written ops) <= 2 ^ 64 ->
  exists d rt rs,
    run_new (S fuel) n a ops = Ok (d, rt, rs) /\
    len (buffer d) = n /\
    forall (i : nat) (s : slot T),
      buffer d !! i = Some s ->
      match s with
      | None =>
          forall j, 0 <= j < len (written ops) -> j mod n <> Z.of_nat i
      | Some p =>
          seq (pointee p) mod n = Z.of_nat i /\
          0 <= seq (pointee p) < len (written ops) /\
          written ops !! Z.to_nat (seq (pointee p)) = Some (data (pointee p)) /\
          forall j, 0 <= j < len (written ops) -> j mod n = Z.of_nat i ->
                    j <= seq (pointee p)
      end.
Proof.
  intros Hn Hm.
  pose proof (NewManyToOne_ok (T:=T) n a ltac:(lia)) as Hnew.
  pose proof (NewManyToOne_inv n a _ ltac:(lia) Hnew) as HI0.
  destruct (run_inv fuel n ops [] _ rt0 HI0) as (d & rt & rs & Hrun & HI).
  { change (len (A:=GenericDataType T) []) with 0. lia. }
  rewrite app_nil_l in HI. destruct HI as [Hn' Hlen _ _ _ Hslots _].
  exists d, rt, rs. split; [| split; [exact Hlen |]].
  { unfold run_new. rewrite Hnew. exact Hrun. }
  intros i s Hs. pose proof (Hslots i s Hs) as Hp.
  assert (Hi : Z.of_nat i < n).
  { apply lookup_lt_Some in Hs. unfold len in Hlen. lia. }
  destruct s as [p|]; simpl in Hp.
  - destruct Hp as (Hmod & Hrange & Hlast & Hval).
    split; [exact Hmod |]. split; [exact Hrange |]. split; [exact Hval |].
    intros j Hj Hjm.
    destruct (Z_le_gt_dec j (seq (pointee p))) as [Hle|Hgt]; [exact Hle |].
    pose proof (same_residue_apart n j (seq (pointee p)) Hn'
                  ltac:(congruence) ltac:(lia)). lia.
  - intros j Hj. rewrite Z.mod_small by lia. lia.
Qed.

Lemma slot_invariant_six_writes_two_reads :
  exists d rt rs,
    run_new 1 4 None (six_writes ++ [OpTryNext; OpTryNext]) = Ok (d, rt, rs) /\
    len (buffer d) = 4 /\
    forall (i : nat) (s : slot Z),
      buffer d !! i = Some s ->
      match s with
      | None => forall j, 0 <= j < 6 -> j mod 4 <> Z.of_nat i
      | Some p =>
          seq (pointee p) mod 4 = Z.of_nat i /\
          0 <= seq (pointee p) < 6 /\
          six_values !! Z.to_nat (seq (pointee p)) = Some (data (pointee p)) /\
          forall j, 0 <= j < 6 -> j mod 4 = Z.of_nat i -> j <= seq (pointee p)
      end.
Proof.
  apply (slot_invariant 0 4 None (six_writes ++ [OpTryNext; OpTryNext]));
    vm_compute; repeat split; congruence.
Defined.

(** C6. Non-negative drop count: in any run on a fresh engine of capacity
    [n] with at most [2^63] writes, every number [TryNext] hands to the
    alerter, [int((writeIndex + 1) - readIndex - len)], is at least one and
    at most the number of writes less the capacity; so it is never
    negative. *)
Theorem dropped_nonnegative {T : Type} (fuel : nat) (n : Z)
  (a : option Alerter) (ops : list (op T)) :
  1 <= n <= max_int ->
  len (written ops) <= 2 ^ 63 ->
  exists d rt rs,
    run_new (S fuel) n a ops = Ok (d, rt, rs) /\
    forall k, In (Alert k) (events rt) ->
              0 <= k /\ 1 <= k <= len (written ops) - n.
Proof.
  intros Hn Hm.
  pose proof (NewManyToOne_ok (T:=T) n a ltac:(lia)) as Hnew.
  pose proof (NewManyToOne_inv n a _ ltac:(lia) Hnew) as HI0.
  destruct (run_inv fuel n ops [] _ rt0 HI0) as (d & rt & rs & Hrun & HI).
  { change (len (A:=GenericDataType T) []) with 0. lia. }
  rewrite app_nil_l in HI. destruct HI as [_ _ _ _ _ _ Hal].
  exists d, rt, rs. split.
  { unfold run_new. rewrite Hnew. exact Hrun. }
  intros k Hk. unfold alerts_within in Hal.
  rewrite Forall_forall in Hal. apply list_elem_of_In in Hk.
  destruct (Hal _ Hk) as (k' & Hkk & Hrange).
  injection Hkk as ->. rewrite int_of_uint64_small by lia. lia.
Qed.

Lemma dropped_nonnegative_six_writes :
  exists d rt rs,
    run_new 1 4 None (six_writes ++ [OpTryNext]) = Ok (d, rt, rs) /\
    forall k, In (Alert k) (events rt) -> 0 <= k /\ 1 <= k <= 6 - 4.
Proof.
  apply (dropped_nonnegative 0 4 None (six_writes ++ [OpTryNext]));
    vm_compute; repeat split; congruence.
Defined.

(** C8. Write-cursor initialization: the write index of a fresh engine is
    [2^64 - 1], zero minus one in [uint64], so the first increment wraps to
    zero; and in any run the [k]-th write takes sequence number [k - 1]:
    after [k - 1] writes, with any reads among them, the next [Set] leaves
    the write index at [k - 1] and stores its value with that sequence
    number in slot [(k - 1) mod n]. *)
Theorem write_index_starts_before_zero {T : Type} (fuel : nat) (n : Z)
  (a : option Alerter) (ops : list (op T)) (v : GenericDataType T) :
  1 <= n <= max_int ->
  len (written ops) < 2 ^ 64 ->
  exists d0 d rt rs p,
    NewManyToOne n a = Ok d0 /\
    writeIndex d0 = 2 ^ 64 - 1 /\
    writeIndex d0 = uint64 (0 - 1) /\
    AddUint64 (writeIndex d0) 1 = 0 /\
    run (S fuel) (ops ++ [OpSet v]) d0 rt0 = Ok (d, rt, rs) /\
    writeIndex d = len (written ops) /\
    buffer d !! Z.to_nat (len (written ops) mod n) = Some (Some p) /\
    pointee p = {| data := v; seq := len (written ops) |}.
Proof.
  intros Hn Hm.
  pose proof (NewManyToOne_ok (T:=T) n a ltac:(lia)) as Hnew.
  pose proof (NewManyToOne_inv n a _ ltac:(lia) Hnew) as HI0.
  destruct (run_inv fuel n ops [] _ rt0 HI0) as (d1 & rt1 & rs & Hrun & HI).
  { change (len (A:=GenericDataType T) []) with 0. lia. }
  rewrite app_nil_l in HI.
  destruct (Set_inv fuel n _ d1 rt1 v HI Hm)
    as (d & rt & Hset & HI' & Hw & _ & _ & Hbuf).
  eexists _, d, rt, rs, _. split; [exact Hnew |].
  split; [reflexivity |]. split; [reflexivity |]. split; [reflexivity |].
  split.
  { rewrite run_app, Hrun. cbn [bind]. cbn [run]. rewrite Hset.
    cbn [bind]. rewrite app_nil_r. reflexivity. }
  split; [exact Hw |]. split.
  - rewrite Hbuf. apply list_lookup_insert_eq.
    destruct HI as [Hn' Hlen _ _ _ _ _].
    pose proof (Z.mod_pos_bound (len (written ops)) n Hn').
    unfold len, slot in *. lia.
  - reflexivity.
Qed.

Lemma write_index_starts_before_zero_first_write :
  exists d0 d rt rs p,
    NewManyToOne 4 None = Ok d0 /\
    writeIndex d0 = 2 ^ 64 - 1 /\
    writeIndex d0 = uint64 (0 - 1) /\
    AddUint64 (writeIndex d0) 1 = 0 /\
    run 1 ([OpTryNext] ++ [OpSet (Some 7)]) d0 rt0 = Ok (d, rt, rs) /\
    writeIndex d = 0 /\
    buffer d !! Z.to_nat (0 mod 4) = Some (Some p) /\
    pointee p = {| data := Some 7; seq := 0 |}.
Proof.
  apply (write_index_starts_before_zero 0 4 None [OpTryNext] (Some 7));
    vm_compute; repeat split; congruence.
Defined.

(** ** Set returns *)

Section Termination.

Context {T : Type}.

Implicit Types (d : ManyToOne T) (rt : runtime) (v : GenericDataType T).

(** A turn of the loop on a well-formed engine stores the value, or takes
    a sequence number other than [len - 1] and leaves the buffer alone. *)
Lemma Set_attempt_wf d v rt :
  wf d ->
  exists t,
    Set_attempt d v rt = Ok t /\
    match t with
    | Stored d' _ => wf d'
    | Collision d' _ =>
        buffer d' = buffer d /\
        writeIndex d' = uint64 (writeIndex d + 1) /\
        uint64 (writeIndex d + 1) <> len (buffer d) - 1
    end.
Proof.
  intros [Hlen Hseq]. unfold Set_attempt, AddUint64.
  cbn [buffer with_writeIndex].
  set (w := uint64 (writeIndex d + 1)).
  pose proof (uint64_range (writeIndex d + 1)) as Hw. fold w in Hw.
  pose proof (Z.mod_pos_bound w (len (buffer d)) ltac:(lia)) as Hidx.
  destruct (slot_at (buffer d) (w mod len (buffer d))) as [old Hold]; [lia |].
  rewrite umod_ok by lia. cbn [bind]. unfold LoadPointer.
  rewrite (index_ok (buffer d) (w mod len (buffer d)) _ ltac:(lia) Hold).
  cbn [bind].
  destruct (in_range old w (len (buffer d))) eqn:Hin.
  - eexists. split; [reflexivity |]. cbn [buffer writeIndex with_writeIndex].
    split; [reflexivity |]. split; [reflexivity |].
    intros Hlast. destruct old as [p|]; simpl in Hin; [| discriminate].
    apply lookup_lt_Some in Hold as Hlt.
    pose proof (Hseq _ _ Hold) as Hp.
    rewrite Hlast in Hin.
    replace (len (buffer d) - 1 - len (buffer d)) with (-1) in Hin by lia.
    change (uint64 (-1)) with (2 ^ 64 - 1) in Hin.
    destruct (Z.gtb_spec (seq (pointee p)) (2 ^ 64 - 1)); [lia | discriminate].
  - cbn [new_bucket].
    rewrite (CompareAndSwapPointer_loaded (buffer d) (w mod len (buffer d))
               _ _ ltac:(lia) Hold).
    cbn [bind]. eexists. split; [reflexivity |].
    split; cbn [buffer with_buffer with_writeIndex].
    + unfold len in *. rewrite length_insert. exact Hlen.
    + intros i p Hi.
      destruct (Nat.eq_dec i (Z.to_nat (w mod len (buffer d)))) as [E|E].
      * subst i. rewrite list_lookup_insert_eq in Hi
          by (unfold len, slot in *; lia).
        injection Hi as <-. cbn [pointee seq]. lia.
      * rewrite list_lookup_insert_ne in Hi by congruence.
        exact (Hseq _ _ Hi).
Qed.

Lemma Set_wf (fuel : nat) :
  forall d v rt d' rt',
    wf d -> Set_ fuel d v rt = Ok (d', rt') -> wf d'.
Proof.
  induction fuel as [| fuel IH]; intros d v rt d' rt' Hwf H;
    [discriminate |].
  cbn [Set_] in H.
  destruct (Set_attempt_wf d v rt Hwf) as (t & Heq & Ht).
  rewrite Heq in H. cbn [bind] in H. destruct t as [d1 rt1 | d1 rt1].
  - injection H as <- _. exact Ht.
  - destruct Ht as (Hb & _ & _). apply (IH d1 v rt1 d' rt'); [| exact H].
    unfold wf. rewrite Hb. exact Hwf.
Qed.

(** The loop of [Set] ends within [turns_left d + 1] turns. *)
Lemma Set_returns_within (k : nat) :
  forall d v rt,
    wf d -> turns_left d = Z.of_nat k ->
    exists d' rt',
      forall extra : nat, Set_ (S k + extra) d v rt = Ok (d', rt').
Proof.
  induction k as [| k IH]; intros d v rt Hwf Hk;
    destruct (Set_attempt_wf d v rt Hwf) as (t & Heq & Ht);
    destruct t as [d1 rt1 | d1 rt1].
  - exists d1, rt1. intros extra. cbn [Set_ Nat.add]. rewrite Heq. reflexivity.
  - exfalso. destruct Ht as (_ & _ & Hne). apply Hne.
    destruct Hwf as [Hlen _]. unfold turns_left in Hk.
    replace (writeIndex d + 1)
      with (len (buffer d) - 1 - (len (buffer d) - 2 - writeIndex d)) by lia.
    rewrite <- uint64_sub_r, Hk. cbn [Z.of_nat]. rewrite Z.sub_0_r.
    apply uint64_small. lia.
  - exists d1, rt1. intros extra. cbn [Set_ Nat.add]. rewrite Heq. reflexivity.
  - destruct Ht as (Hb & Hw & _).
    destruct (IH d1 v rt1) as (d' & rt' & Hrun).
    + unfold wf. rewrite Hb. exact Hwf.
    + unfold turns_left in *. rewrite Hb, Hw, uint64_sub_r.
      replace (len (buffer d) - 2 - (writeIndex d + 1))
        with (len (buffer d) - 2 - writeIndex d - 1) by lia.
      rewrite <- uint64_sub_l, Hk.
      replace (Z.of_nat (S k) - 1) with (Z.of_nat k) by lia.
      apply uint64_small.
      pose proof (uint64_range (len (buffer d) - 2 - writeIndex d)). lia.
    + exists d', rt'. intros extra.
      change (S (S k) + extra)%nat with (S (S k + extra)).
      cbn [Set_]. rewrite Heq. cbn [bind]. apply Hrun.
Qed.

Lemma reachable_wf d rt : reachable d rt -> wf d.
Proof.
  induction 1 as [size a d rt Hs Hnew | fuel v d d' rt rt' _ IH Hset
                 | d d' rt rt' r _ IH Hread].
  - unfold max_int in Hs. rewrite NewManyToOne_ok in Hnew by lia.
    injection Hnew as <-. split; cbn [buffer].
    + unfold len. rewrite length_replicate. lia.
    + intros i p Hi. apply lookup_replicate in Hi as [Hi _]. discriminate Hi.
  - exact (Set_wf fuel d v rt d' rt' IH Hset).
  - apply TryNext_buffer in Hread as [Hb _]. unfold wf. rewrite Hb. exact IH.
Qed.

End Termination.

(** C9. [Set] always completes: in every state that calls of [Set] and
    [TryNext] can bring a fresh engine to, and for every value, the retry
    loop of [Set] ends and the call returns: some number of turns, at most
    [turns_left d + 1], is enough, and more fuel does not change the
    outcome. *)
Theorem Set_always_returns {T : Type} (d : ManyToOne T) (rt : runtime)
  (v : GenericDataType T) :
  reachable d rt ->
  exists (turns : nat) (d' : ManyToOne T) (rt' : runtime),
    Z.of_nat turns = turns_left d + 1 /\
    forall extra : nat, Set_ (turns + extra) d v rt = Ok (d', rt').
Proof.
  intros Hr. apply reachable_wf in Hr.
  pose proof (uint64_range (len (buffer d) - 2 - writeIndex d)) as Ht.
  destruct (Set_returns_within (Z.to_nat (turns_left d)) d v rt Hr)
    as (d' & rt' & Hrun).
  { unfold turns_left. lia. }
  exists (S (Z.to_nat (turns_left d))), d', rt'.
  split; [unfold turns_left; lia | exact Hrun].
Qed.

Lemma Set_always_returns_fresh :
  exists (turns : nat) (d' : ManyToOne Z) (rt' : runtime),
    Z.of_nat turns = turns_left fresh_engine + 1 /\
    forall extra : nat,
      Set_ (turns + extra) fresh_engine (Some 6) rt0 = Ok (d', rt').
Proof.
  apply (Set_always_returns fresh_engine rt0 (Some 6)).
  apply (reach_new 4 None); [unfold max_int; lia | reflexivity].
Defined.

(** * Further properties of the three functions *)

(** ** Set on any engine *)

Section AnyEngine.

Context {T : Type}.

Implicit Types (d : ManyToOne T) (rt : runtime) (v : GenericDataType T).

(** What one turn of the loop does, whatever the engine: it takes the next
    sequence number [w]; it stores the value in slot [w mod len] when that
    slot is nil or holds a sequence number of at most [w - len], and
    otherwise logs the collision line and changes nothing else. *)
Lemma Set_attempt_cases d v rt (t : attempt T) :
  Set_attempt d v rt = Ok t ->
  let w := uint64 (writeIndex d + 1) in
  let n := len (buffer d) in
  match t with
  | Stored d' rt' =>
      exists old,
        buffer d !! Z.to_nat (w mod n) = Some old /\
        in_range old w n = false /\
        d' = with_buffer (with_writeIndex d w)
               (<[Z.to_nat (w mod n) :=
                    Some {| addr := next_addr rt;
                            pointee := {| data := v; seq := w |} |}]>
                  (buffer d)) /\
        events rt' = events rt
  | Collision d' rt' =>
      d' = with_writeIndex d w /\
      events rt' = events rt ++ [Println collision_line]
  end.
Proof.
  unfold Set_attempt, AddUint64. cbn [buffer with_writeIndex].
  set (w := uint64 (writeIndex d + 1)). set (n := len (buffer d)).
  intros H. cbv zeta.
  assert (Hn0 : 0 <= n) by apply len_nonneg.
  unfold umod in H. destruct (Z.eqb_spec n 0) as [E|E]; [discriminate |].
  cbn [bind] in H.
  pose proof (Z.mod_pos_bound w n ltac:(lia)) as Hidx.
  destruct (slot_at (buffer d) (w mod n)) as [old Hold]; [fold n; lia |].
  unfold LoadPointer in H.
  rewrite (index_ok (buffer d) (w mod n) _ ltac:(lia) Hold) in H.
  cbn [bind] in H.
  destruct (in_range old w n) eqn:Hin.
  - injection H as <-. split; reflexivity.
  - cbn [new_bucket] in H.
    rewrite (CompareAndSwapPointer_loaded (buffer d) (w mod n) _ _
               ltac:(lia) Hold) in H.
    cbn [bind] in H. injection H as <-.
    exists old. split; [exact Hold |]. split; [exact Hin |].
    split; reflexivity.
Qed.

Lemma Set_frame_any (fuel : nat) :
  forall d v rt d' rt',
    Set_ fuel d v rt = Ok (d', rt') ->
    readIndex d' = readIndex d /\
    alerter d' = alerter d /\
    len (buffer d') = len (buffer d) /\
    exists k : nat,
      (k < fuel)%nat /\
      events rt' = events rt ++ replicate k (Println collision_line) /\
      writeIndex d' = uint64 (writeIndex d + Z.of_nat k + 1).
Proof.
  induction fuel as [| fuel IH]; intros d v rt d' rt' H; [discriminate |].
  cbn [Set_] in H.
  destruct (Set_attempt d v rt) as [t| |] eqn:Ht; cbn [bind] in H;
    try discriminate.
  apply Set_attempt_cases in Ht. cbv zeta in Ht.
  destruct t as [d1 rt1 | d1 rt1].
  - injection H as <- <-. destruct Ht as (old & Hold & _ & -> & He).
    cbn [readIndex alerter buffer writeIndex with_buffer with_writeIndex].
    split; [reflexivity |]. split; [reflexivity |].
    split; [unfold len; rewrite length_insert; reflexivity |].
    exists O. split; [lia |]. cbn [replicate Z.of_nat].
    rewrite app_nil_r, Z.add_0_r. split; [exact He | reflexivity].
  - destruct Ht as (-> & He).
    destruct (IH _ _ _ _ _ H) as (Hr & Ha & Hl & k & Hk & Hev & Hw).
    cbn [readIndex alerter buffer writeIndex with_writeIndex] in Hr, Ha, Hl, Hw.
    split; [exact Hr |]. split; [exact Ha |]. split; [exact Hl |].
    exists (S k). split; [lia |]. split.
    + rewrite Hev, He, <- app_assoc. reflexivity.
    + rewrite Hw. rewrite <- Z.add_assoc, uint64_add_l. f_equal. lia.
Qed.

Lemma Set_stores_any (fuel : nat) :
  forall d v rt d' rt',
    Set_ fuel d v rt = Ok (d', rt') ->
    exists (old : slot T) (p : bucket_ptr T),
      let i := Z.to_nat (writeIndex d' mod len (buffer d)) in
      buffer d !! i = Some old /\
      in_range old (writeIndex d') (len (buffer d)) = false /\
      buffer d' = <[i := Some p]> (buffer d) /\
      pointee p = {| data := v; seq := writeIndex d' |}.
Proof.
  induction fuel as [| fuel IH]; intros d v rt d' rt' H; [discriminate |].
  cbn [Set_] in H.
  destruct (Set_attempt d v rt) as [t| |] eqn:Ht; cbn [bind] in H;
    try discriminate.
  apply Set_attempt_cases in Ht. cbv zeta in Ht.
  destruct t as [d1 rt1 | d1 rt1].
  - injection H as <- <-. destruct Ht as (old & Hold & Hin & -> & _).
    cbn [buffer writeIndex with_buffer with_writeIndex].
    eexists old, _. cbv zeta.
    split; [exact Hold |]. split; [exact Hin |]. split; reflexivity.
  - destruct Ht as (-> & _). apply IH in H. exact H.
Qed.

End AnyEngine.

(** X1. Whatever the engine, a [Set] that returns has left the read
    index, the alerter and the length of the buffer alone and has not
    called the alerter: the trace grows by one collision line for each turn
    that ended in [continue], and each turn, the last one included, has
    taken one sequence number. *)
Theorem Set_leaves_reader_alone {T : Type} (fuel : nat) (d d' : ManyToOne T)
  (v : GenericDataType T) (rt rt' : runtime) :
  Set_ fuel d v rt = Ok (d', rt') ->
  readIndex d' = readIndex d /\
  alerter d' = alerter d /\
  len (buffer d') = len (buffer d) /\
  exists k : nat,
    (k < fuel)%nat /\
    events rt' = events rt ++ replicate k (Println collision_line) /\
    writeIndex d' = uint64 (writeIndex d + Z.of_nat k + 1).
Proof. apply Set_frame_any. Qed.

Lemma Set_leaves_reader_alone_lapped :
  Set_ 3 (with_readIndex lapped_engine 3) (Some 6) rt0 =
    Ok (with_buffer (with_writeIndex (with_readIndex lapped_engine 3) 6)
          (<[2%nat := Some {| addr := 0;
                              pointee := {| data := Some 6; seq := 6 |} |}]>
             (buffer lapped_engine)),
        {| next_addr := 1; events := [] |}) /\
  exists k : nat,
    (k < 3)%nat /\
    events {| next_addr := 1; events := [] |} =
      events rt0 ++ replicate k (Println collision_line) /\
    6 = uint64 (5 + Z.of_nat k + 1).
Proof.
  split; [reflexivity |].
  pose proof (Set_leaves_reader_alone 3 (with_readIndex lapped_engine 3) _
                (Some 6) rt0 _ eq_refl) as (_ & _ & _ & H).
  exact H.
Defined.

(** X2. Whatever the engine, a [Set] that returns has changed one slot
    of the buffer: the slot at its final sequence number modulo the length,
    which now holds the value with that sequence number. The slot it
    replaced was nil or held a sequence number that fails the collision
    test, so no more than [writeIndex - len] in [uint64]. *)
Theorem Set_stores_one_slot {T : Type} (fuel : nat) (d d' : ManyToOne T)
  (v : GenericDataType T) (rt rt' : runtime) :
  Set_ fuel d v rt = Ok (d', rt') ->
  exists (old : slot T) (p : bucket_ptr T),
    let i := Z.to_nat (writeIndex d' mod len (buffer d)) in
    buffer d !! i = Some old /\
    in_range old (writeIndex d') (len (buffer d)) = false /\
    buffer d' = <[i := Some p]> (buffer d) /\
    pointee p = {| data := v; seq := writeIndex d' |}.
Proof. apply Set_stores_any. Qed.

Lemma Set_stores_one_slot_lapped :
  exists (old : slot Z) (p : bucket_ptr Z),
    buffer lapped_engine !! 2%nat = Some old /\
    in_range old 6 4 = false /\
    [Some {| addr := 4; pointee := {| data := Some 4; seq := 4 |} |};
     Some {| addr := 5; pointee := {| data := Some 5; seq := 5 |} |};
     Some {| addr := 0; pointee := {| data := Some 6; seq := 6 |} |};
     Some {| addr := 3; pointee := {| data := Some 3; seq := 3 |} |}]
      = <[2%nat := Some p]> (buffer lapped_engine) /\
    pointee p = {| data := Some 6; seq := 6 |}.
Proof.
  exact (Set_stores_one_slot 1 lapped_engine _ (Some 6) rt0 _ eq_refl).
Defined.

(** ** TryNext on any engine *)

(** X3. Whatever the engine, a [TryNext] that returns has left the write
    index, the alerter and the allocator alone. An answer with [false]
    carries nil and changes nothing at all. An answer with [true] moves the
    read index by one plus a count [D] (in [uint64]): either the trace is
    unchanged and [D] is zero, or the trace grows by the single event
    [Alert (int D)]. The call never logs. *)
Theorem TryNext_touches_little {T : Type} (d d' : ManyToOne T)
  (rt rt' : runtime) (v : GenericDataType T) (ok : bool) :
  TryNext d rt = Ok (d', rt', (v, ok)) ->
  writeIndex d' = writeIndex d /\
  alerter d' = alerter d /\
  next_addr rt' = next_addr rt /\
  (ok = false -> v = None /\ d' = d /\ rt' = rt) /\
  (ok = true ->
   exists D,
     0 <= D < 2 ^ 64 /\
     readIndex d' = uint64 (readIndex d + D + 1) /\
     (events rt' = events rt /\ D = 0 \/
      events rt' = events rt ++ [Alert (int_of_uint64 D)])).
Proof.
  unfold TryNext. intros H.
  destruct (umod _ _) as [i| |]; cbn [bind] in H; try discriminate.
  destruct (LoadPointer (buffer d) i) as [[p|]| |] eqn:E; cbn [bind] in H;
    try discriminate.
  2: { injection H as <- <- <- <-. repeat split; try reflexivity.
       discriminate. }
  destruct (seq (pointee p) >? readIndex d).
  - unfold catch_up in H. cbn [readIndex buffer with_readIndex] in H.
    destruct (umod _ _) as [j| |]; cbn [bind] in H; try discriminate.
    destruct (LoadPointer (buffer d) j) as [res| |]; cbn [bind] in H;
      try discriminate.
    destruct (CompareAndSwapPointer _ _ _ _) as [[buf b]| |];
      cbn [bind] in H; try discriminate.
    destruct res as [q|]; [| discriminate].
    injection H as <- <- <- <-.
    cbn [writeIndex alerter readIndex with_buffer with_readIndex emit
         next_addr events].
    repeat split; try reflexivity; try discriminate.
    intros _.
    exists (uint64 (uint64 (uint64 (writeIndex d + 1) - readIndex d)
                    - len (buffer d))).
    split; [apply uint64_range |]. split; [| right; reflexivity].
    rewrite uint64_add_l.
    replace (uint64 (writeIndex d + 1) - len (buffer d) + 1)
      with (uint64 (writeIndex d + 1) - (len (buffer d) - 1)) by lia.
    rewrite uint64_sub_l.
    replace (readIndex d
             + uint64 (uint64 (uint64 (writeIndex d + 1) - readIndex d)
                       - len (buffer d)) + 1)
      with (uint64 (uint64 (uint64 (writeIndex d + 1) - readIndex d)
                    - len (buffer d)) + (readIndex d + 1)) by lia.
    rewrite uint64_add_l.
    replace (uint64 (uint64 (writeIndex d + 1) - readIndex d)
             - len (buffer d) + (readIndex d + 1))
      with (uint64 (uint64 (writeIndex d + 1) - readIndex d)
            - (len (buffer d) - readIndex d - 1)) by lia.
    rewrite uint64_sub_l.
    replace (uint64 (writeIndex d + 1) - readIndex d
             - (len (buffer d) - readIndex d - 1))
      with (uint64 (writeIndex d + 1) - (len (buffer d) - 1)) by lia.
    rewrite uint64_sub_l. reflexivity.
  - cbn [bind] in H.
    destruct (CompareAndSwapPointer _ _ _ _) as [[buf b]| |];
      cbn [bind] in H; try discriminate.
    injection H as <- <- <- <-.
    cbn [writeIndex alerter readIndex with_buffer with_readIndex].
    repeat split; try reflexivity; try discriminate.
    intros _. exists 0. split; [lia |].
    rewrite Z.add_0_r. split; [reflexivity | left; split; reflexivity].
Qed.

Lemma TryNext_touches_little_lapped :
  TryNext lapped_engine rt0 =
    Ok (with_readIndex lapped_engine 3,
        {| next_addr := 0; events := [Alert 2] |}, (Some 2, true)) /\
  exists D,
    0 <= D < 2 ^ 64 /\
    3 = uint64 (0 + D + 1) /\
    ([Alert 2] = [] /\ D = 0 \/ [Alert 2] = [] ++ [Alert (int_of_uint64 D)]).
Proof.
  split; [reflexivity |].
  pose proof (TryNext_touches_little lapped_engine _ rt0 _ (Some 2) true
                eq_refl) as (_ & _ & _ & _ & H).
  exact (H eq_refl).
Defined.

(** ** Reads at any point of a run *)

Section ReadsInRuns.

Context {T : Type}.

Implicit Types (d : ManyToOne T) (rt : runtime).
Implicit Types (vs : list (GenericDataType T)).

(** The state a run on a fresh engine ends in satisfies the invariant. *)
Lemma run_new_inv (fuel : nat) (n : Z) (a : option Alerter)
  (ops : list (op T)) d rt (rs : list (GenericDataType T * bool)) :
  1 <= n <= max_int ->
  len (written ops) <= 2 ^ 64 ->
  run_new (S fuel) n a ops = Ok (d, rt, rs) ->
  Inv n (written ops) d rt.
Proof.
  intros Hn Hm Hrun.
  pose proof (NewManyToOne_ok (T:=T) n a ltac:(lia)) as Hnew.
  pose proof (NewManyToOne_inv n a _ ltac:(lia) Hnew) as HI0.
  destruct (run_inv fuel n ops [] _ rt0 HI0) as (d1 & rt1 & rs1 & Heq & HI).
  { change (len (A:=GenericDataType T) []) with 0. lia. }
  unfold run_new in Hrun. rewrite Hnew in Hrun. cbn [bind] in Hrun.
  rewrite Heq in Hrun. injection Hrun as <- <- <-. exact HI.
Qed.

(** The slot under a read index that is at most a capacity behind the
    writes holds the value of that very sequence number. *)
Lemma slot_in_window (n : Z) vs d rt :
  Inv n vs d rt ->
  len vs - n <= readIndex d < len vs ->
  exists p,
    buffer d !! Z.to_nat (readIndex d mod n) = Some (Some p) /\
    seq (pointee p) = readIndex d /\
    vs !! Z.to_nat (readIndex d) = Some (data (pointee p)).
Proof.
  intros [Hn Hlen Hcount Hw Hr Hslots Hal] Hwin.
  pose proof (Z.mod_pos_bound (readIndex d) n Hn) as Hidx.
  pose proof (Z.mod_le (readIndex d) n ltac:(lia) Hn) as Hle.
  destruct (slot_at (buffer d) (readIndex d mod n)) as [s Hs]; [lia |].
  pose proof (Hslots _ _ Hs) as Hp. rewrite Z2Nat.id in Hp by lia.
  destruct s as [p|]; simpl in Hp; [| lia].
  destruct Hp as (Hmod & Hrange & Hlast & Hval).
  assert (Hseq : seq (pointee p) = readIndex d).
  { destruct (Z.lt_trichotomy (seq (pointee p)) (readIndex d))
      as [Hlt | [Heq | Hgt]]; [| exact Heq |].
    - pose proof (same_residue_apart n _ _ Hn (eq_sym Hmod) Hlt). lia.
    - pose proof (same_residue_apart n _ _ Hn Hmod Hgt). lia. }
  exists p. split; [exact Hs |]. split; [exact Hseq |].
  rewrite <- Hseq. exact Hval.
Qed.

(** The three ways a read can go on a run that has not wrapped. *)
Lemma TryNext_cases (n : Z) vs d rt :
  Inv n vs d rt ->
  (len vs <= readIndex d mod n /\
   TryNext d rt = Ok (d, rt, (None, false))) \/
  (exists v,
     readIndex d mod n < len vs /\ v ∈ vs /\
     TryNext d rt =
       Ok (with_readIndex d (uint64 (readIndex d + 1)), rt, (v, true))) \/
  (exists v,
     readIndex d + n < len vs /\ v ∈ vs /\
     TryNext d rt =
       Ok (with_readIndex d (uint64 (len vs - n + 1)),
           emit (Alert (int_of_uint64 (len vs - n - readIndex d))) rt,
           (v, true))).
Proof.
  intros HI. pose proof HI as [Hn Hlen Hcount Hw Hr Hslots Hal].
  pose proof (Z.mod_pos_bound (readIndex d) n Hn) as Hidx.
  destruct (slot_at (buffer d) (readIndex d mod n)) as [s Hs]; [lia |].
  pose proof (Hslots _ _ Hs) as Hp. rewrite Z2Nat.id in Hp by lia.
  destruct s as [p|]; simpl in Hp.
  - destruct Hp as (Hmod & Hrange & Hlast & Hval).
    destruct (Z_lt_le_dec (readIndex d) (seq (pointee p))) as [Hlt|Hle].
    + right. right.
      pose proof (same_residue_apart n _ _ Hn Hmod Hlt) as Hgap.
      destruct (TryNext_lapped n vs d rt p HI Hs Hlt) as (v & Hv & _ & Heq).
      exists v. split; [lia |]. split; [| exact Heq].
      apply list_elem_of_lookup. eexists. exact Hv.
    + right. left. exists (data (pointee p)).
      pose proof (Z.mod_le (seq (pointee p)) n ltac:(lia) Hn).
      split; [lia |]. split.
      * apply list_elem_of_lookup. eexists. exact Hval.
      * apply TryNext_plain; [| exact Hle]. rewrite Hlen. exact Hs.
  - left. split; [exact Hp |]. apply TryNext_nil. rewrite Hlen. exact Hs.
Qed.

End ReadsInRuns.

(** X4. No loss inside the window: after any run on a fresh engine, when
    the read index is behind the writes by at least one and at most the
    capacity, [TryNext] hands out the value written with the sequence number
    the read index stands at, moves the read index by one and calls no
    one. *)
Theorem read_within_window {T : Type} (fuel : nat) (n : Z)
  (a : option Alerter) (ops : list (op T)) (d : ManyToOne T) (rt : runtime)
  (rs : list (GenericDataType T * bool)) :
  1 <= n <= max_int ->
  len (written ops) <= 2 ^ 64 ->
  run_new (S fuel) n a ops = Ok (d, rt, rs) ->
  len (written ops) - n <= readIndex d < len (written ops) ->
  exists v,
    written ops !! Z.to_nat (readIndex d) = Some v /\
    TryNext d rt =
      Ok (with_readIndex d (uint64 (readIndex d + 1)), rt, (v, true)).
Proof.
  intros Hn Hm Hrun Hwin.
  pose proof (run_new_inv fuel n a ops d rt rs Hn Hm Hrun) as HI.
  destruct (slot_in_window n _ d rt HI Hwin) as (p & Hs & Hseq & Hval).
  exists (data (pointee p)). split; [exact Hval |].
  apply TryNext_plain; [| lia].
  destruct HI as [_ Hlen _ _ _ _ _]. rewrite Hlen. exact Hs.
Qed.

Lemma read_within_window_after_catch_up :
  run_new 1 4 None (six_writes ++ [OpTryNext]) =
    Ok (with_readIndex lapped_engine 3,
        {| next_addr := 6; events := [Alert 2] |}, [(Some 2, true)]) /\
  exists v,
    written (six_writes ++ [OpTryNext]) !! Z.to_nat 3 = Some v /\
    TryNext (with_readIndex lapped_engine 3)
      {| next_addr := 6; events := [Alert 2] |} =
      Ok (with_readIndex (with_readIndex lapped_engine 3) (uint64 (3 + 1)),
          {| next_addr := 6; events := [Alert 2] |}, (v, true)).
Proof.
  split; [reflexivity |].
  apply (read_within_window 0 4 None (six_writes ++ [OpTryNext])
           (with_readIndex lapped_engine 3)
           {| next_addr := 6; events := [Alert 2] |} [(Some 2, true)]);
    vm_compute; repeat split; congruence.
Defined.

(** X5. Catch-up from any read position: after any run on a fresh
    engine, when the writes are more than a capacity ahead of the read
    index, [TryNext] tells the alerter, once, the number of writes less the
    capacity less the read index; it hands out the oldest value the buffer
    still holds, the one written [n] writes ago, and leaves the read index
    one past it. *)
Theorem read_when_lapped {T : Type} (fuel : nat) (n : Z)
  (a : option Alerter) (ops : list (op T)) (d : ManyToOne T) (rt : runtime)
  (rs : list (GenericDataType T * bool)) :
  1 <= n <= max_int ->
  len (written ops) <= 2 ^ 64 ->
  run_new (S fuel) n a ops = Ok (d, rt, rs) ->
  readIndex d + n < len (written ops) ->
  len (written ops) - n - readIndex d < 2 ^ 63 ->
  exists v,
    written ops !! Z.to_nat (len (written ops) - n) = Some v /\
    TryNext d rt =
      Ok (with_readIndex d (uint64 (len (written ops) - n + 1)),
          emit (Alert (len (written ops) - n - readIndex d)) rt,
          (v, true)).
Proof.
  intros Hn Hm Hrun Hlap Hint.
  pose proof (run_new_inv fuel n a ops d rt rs Hn Hm Hrun) as HI.
  pose proof HI as [Hn' Hlen _ _ Hr Hslots _].
  pose proof (Z.mod_pos_bound (readIndex d) n Hn') as Hidx.
  pose proof (Z.mod_le (readIndex d) n ltac:(lia) Hn') as Hle.
  destruct (slot_at (buffer d) (readIndex d mod n)) as [s Hs]; [lia |].
  pose proof (Hslots _ _ Hs) as Hp. rewrite Z2Nat.id in Hp by lia.
  destruct s as [p|]; simpl in Hp; [| lia].
  destruct (TryNext_lapped n _ d rt p HI Hs ltac:(lia))
    as (v & Hv & Hk & Heq).
  exists v. split; [exact Hv |].
  rewrite int_of_uint64_small in Heq by lia. exact Heq.
Qed.

Lemma read_when_lapped_mid_run :
  run_new 1 4 None ([OpSet (Some 9); OpTryNext] ++ six_writes) =
    Ok (mid_run_engine, {| next_addr := 7; events := [] |},
        [(Some 9, true)]) /\
  exists v,
    written ([OpSet (Some 9); OpTryNext] ++ six_writes) !! Z.to_nat (7 - 4)
      = Some v /\
    TryNext mid_run_engine {| next_addr := 7; events := [] |} =
      Ok (with_readIndex mid_run_engine (uint64 (7 - 4 + 1)),
          emit (Alert (7 - 4 - 1)) {| next_addr := 7; events := [] |},
          (v, true)).
Proof.
  split; [reflexivity |].
  apply (read_when_lapped 0 4 None
           ([OpSet (Some 9); OpTryNext] ++ six_writes) mid_run_engine
           {| next_addr := 7; events := [] |} [(Some 9, true)]);
    vm_compute; repeat split; congruence.
Defined.

(** X6. When a read finds nothing: after any run on a fresh engine,
    [TryNext] returns, and it answers [false] exactly when fewer values have
    been written than the index of the slot under the read index, plus one.
    So once [n] values have been written it never answers [false] again. *)
Theorem empty_only_before_first_lap {T : Type} (fuel : nat) (n : Z)
  (a : option Alerter) (ops : list (op T)) (d : ManyToOne T) (rt : runtime)
  (rs : list (GenericDataType T * bool)) :
  1 <= n <= max_int ->
  len (written ops) <= 2 ^ 64 ->
  run_new (S fuel) n a ops = Ok (d, rt, rs) ->
  exists d' rt' v ok,
    TryNext d rt = Ok (d', rt', (v, ok)) /\
    (ok = false <-> len (written ops) <= readIndex d mod n) /\
    (n <= len (written ops) -> ok = true).
Proof.
  intros Hn Hm Hrun.
  pose proof (run_new_inv fuel n a ops d rt rs Hn Hm Hrun) as HI.
  pose proof HI as [Hn' _ _ _ Hr _ _].
  pose proof (Z.mod_pos_bound (readIndex d) n Hn') as Hidx.
  pose proof (Z.mod_le (readIndex d) n ltac:(lia) Hn') as Hle.
  destruct (TryNext_cases n _ d rt HI)
    as [[Hempty Heq] | [(v & Hin & _ & Heq) | (v & Hlap & _ & Heq)]].
  - eexists _, _, _, _. split; [exact Heq |]. split; [tauto | lia].
  - eexists _, _, _, _. split; [exact Heq |].
    split; [split; [discriminate | lia] | reflexivity].
  - eexists _, _, _, _. split; [exact Heq |].
    split; [split; [discriminate | lia] | reflexivity].
Qed.

Lemma empty_only_before_first_lap_drained :
  run_new 1 4 None (six_writes ++ replicate 4 OpTryNext) =
    Ok (with_readIndex lapped_engine 6,
        {| next_addr := 6; events := [Alert 2] |},
        [(Some 2, true); (Some 3, true); (Some 4, true); (Some 5, true)]) /\
  exists d' rt' v ok,
    TryNext (with_readIndex lapped_engine 6)
      {| next_addr := 6; events := [Alert 2] |} = Ok (d', rt', (v, ok)) /\
    (ok = false <-> 6 <= 6 mod 4) /\
    (4 <= 6 -> ok = true).
Proof.
  split; [reflexivity |].
  apply (empty_only_before_first_lap 0 4 None
           (six_writes ++ replicate 4 OpTryNext)
           (with_readIndex lapped_engine 6)
           {| next_addr := 6; events := [Alert 2] |}
           [(Some 2, true); (Some 3, true); (Some 4, true); (Some 5, true)]);
    vm_compute; repeat split; congruence.
Defined.

(** ** Whole runs *)

Section WholeRuns.

Context {T : Type}.

Implicit Types (d : ManyToOne T) (rt : runtime).
Implicit Types (vs : list (GenericDataType T)).

Lemma len_cons {A : Type} (x : A) (l : list A) : len (x :: l) = 1 + len l.
Proof. unfold len. simpl length. lia. Qed.


(** A read on a run that has not wrapped keeps the invariant; the state
    it leaves is the one [TryNext] returns. *)
Lemma TryNext_inv_at (n : Z) vs d rt d' rt'
  (r : GenericDataType T * bool) :
  Inv n vs d rt -> TryNext d rt = Ok (d', rt', r) -> Inv n vs d' rt'.
Proof.
  intros HI Heq.
  destruct (TryNext_inv n vs d rt HI) as (d1 & rt1 & r1 & Heq1 & HI1 & _).
  rewrite Heq in Heq1. injection Heq1 as <- <- <-. exact HI1.
Qed.

Lemma run_answers (fuel : nat) (n : Z) (ops : list (op T)) :
  forall vs d rt,
    Inv n vs d rt -> len vs + len (written ops) <= 2 ^ 64 ->
    exists d' rt' rs,
      run (S fuel) ops d rt = Ok (d', rt', rs) /\
      Forall (answer_from (vs ++ written ops)) rs.
Proof.
  induction ops as [| [v|] ops IH]; intros vs d rt HI Hm.
  - exists d, rt, []. split; [reflexivity | constructor].
  - change (written (OpSet v :: ops)) with ([v] ++ written ops) in *.
    rewrite len_app in Hm. change (len [v]) with 1 in Hm.
    pose proof (len_nonneg (written ops)).
    destruct (Set_inv fuel n vs d rt v HI ltac:(lia))
      as (d1 & rt1 & Heq & HI1 & _).
    destruct (IH (vs ++ [v]) d1 rt1 HI1) as (d' & rt' & rs & Hrun & Hrs).
    { rewrite len_app. change (len [v]) with 1. lia. }
    exists d', rt', rs. split.
    + change (run (S fuel) (OpSet v :: ops) d rt)
        with (let* (d, rt) := Set_ (S fuel) d v rt in run (S fuel) ops d rt).
      rewrite Heq. exact Hrun.
    + rewrite <- app_assoc in Hrs. exact Hrs.
  - change (written (OpTryNext :: ops)) with (written ops) in *.
    assert (Hstep : exists d1 rt1 r,
               TryNext d rt = Ok (d1, rt1, r) /\ answer_from vs r).
    { destruct (TryNext_cases n vs d rt HI)
        as [[_ Heq] | [(v & _ & Hv & Heq) | (v & _ & Hv & Heq)]];
        eexists _, _, _; (split; [exact Heq |]); unfold answer_from; simpl;
        [reflexivity | apply list_elem_of_In; exact Hv ..]. }
    destruct Hstep as (d1 & rt1 & r & Heq & Hr).
    pose proof (TryNext_inv_at n vs d rt d1 rt1 r HI Heq) as HI1.
    destruct (IH vs d1 rt1 HI1 Hm) as (d' & rt' & rs & Hrun & Hrs).
    exists d', rt', (r :: rs). split.
    + simpl. rewrite Heq. simpl. rewrite Hrun. reflexivity.
    + constructor; [| exact Hrs].
      unfold answer_from in *. destruct r as [v [|]]; simpl in *;
        [apply in_or_app; left; exact Hr | exact Hr].
Qed.


(** Reads that run through the window hand out what is left of the
    written values, in order. *)
Lemma run_reads_window (fuel : nat) (n : Z) vs (k : nat) :
  forall d rt,
    Inv n vs d rt -> len vs < 2 ^ 64 ->
    len vs - n <= readIndex d ->
    readIndex d + Z.of_nat k = len vs ->
    exists d',
      run fuel (replicate k OpTryNext) d rt =
        Ok (d', rt,
            map (fun v => (v, true)) (drop (Z.to_nat (readIndex d)) vs)) /\
      readIndex d' = len vs.
Proof.
  induction k as [| k IH]; intros d rt HI Hm Hwin Hk.
  - exists d. simpl. rewrite drop_ge by (unfold len in Hk; lia).
    split; [reflexivity | lia].
  - pose proof HI as [Hn Hlen _ _ Hr _ _].
    destruct (slot_in_window n vs d rt HI ltac:(lia))
      as (p & Hs & Hseq & Hval).
    assert (Hplain : TryNext d rt =
              Ok (with_readIndex d (uint64 (readIndex d + 1)), rt,
                  (data (pointee p), true))).
    { apply TryNext_plain; [| lia]. rewrite Hlen. exact Hs. }
    pose proof (TryNext_inv_at n vs d rt _ _ _ HI Hplain) as HI1.
    rewrite uint64_small in HI1, Hplain by lia.
    destruct (IH _ rt HI1 Hm) as (d' & Hrun & Hr'); [simpl; lia .. |].
    exists d'. split; [| exact Hr'].
    simpl. rewrite Hplain. simpl. rewrite Hrun. simpl.
    rewrite (drop_S vs _ (Z.to_nat (readIndex d)) Hval). simpl.
    replace (Z.to_nat (readIndex d + 1)) with (S (Z.to_nat (readIndex d)))
      by lia.
    reflexivity.
Qed.

(** Every write followed by its read: each read hands out the value just
    written. *)
Lemma run_write_read_pairs (fuel : nat) (n : Z)
  (ws : list (GenericDataType T)) :
  forall vs d rt,
    Inv n vs d rt -> readIndex d = len vs -> len vs + len ws < 2 ^ 64 ->
    exists d' rt',
      run (S fuel) (write_read_pairs ws) d rt =
        Ok (d', rt', map (fun v => (v, true)) ws) /\
      events rt' = events rt.
Proof.
  induction ws as [| v ws IH]; intros vs d rt HI Hr Hm.
  - exists d, rt. split; reflexivity.
  - rewrite len_cons in Hm.
    pose proof (len_nonneg ws). pose proof (len_nonneg vs).
    destruct (Set_inv fuel n vs d rt v HI ltac:(lia))
      as (d1 & rt1 & Heq & HI1 & _ & Hr1 & He1 & _).
    pose proof HI1 as [Hn Hlen _ _ _ _ _].
    assert (Hlen1 : len (vs ++ [v]) = len vs + 1)
      by (rewrite len_app; reflexivity).
    destruct (slot_in_window n _ d1 rt1 HI1 ltac:(lia))
      as (p & Hs & Hseq & Hval).
    rewrite Hr1, Hr, lookup_app_r in Hval by (unfold len; lia).
    replace (Z.to_nat (len vs) - length vs)%nat with O in Hval
      by (unfold len; lia).
    injection Hval as Hval.
    assert (Hplain : TryNext d1 rt1 =
              Ok (with_readIndex d1 (uint64 (readIndex d1 + 1)), rt1,
                  (v, true))).
    { rewrite Hval. apply TryNext_plain; [| lia]. rewrite Hlen. exact Hs. }
    pose proof (TryNext_inv_at n _ d1 rt1 _ _ _ HI1 Hplain) as HI2.
    rewrite uint64_small in HI2, Hplain by lia.
    destruct (IH _ _ rt1 HI2) as (d' & rt' & Hrun & He').
    { simpl. lia. }
    { lia. }
    exists d', rt'. split; [| congruence].
    change (run (S fuel) (write_read_pairs (v :: ws)) d rt)
      with (let* (d, rt) := Set_ (S fuel) d v rt in
            let* (d, rt, r) := TryNext d rt in
            let* (d, rt, rs) := run (S fuel) (write_read_pairs ws) d rt in
            Ok (d, rt, r :: rs)).
    rewrite Heq. cbn [bind]. rewrite Hplain. cbn [bind]. rewrite Hrun.
    reflexivity.
Qed.

End WholeRuns.




(** X8. Reads invent nothing: in any run on a fresh engine every answer
    with [true] carries a value that was handed to [Set] in that run, and
    every answer with [false] carries nil. *)
Theorem answers_were_written {T : Type} (fuel : nat) (n : Z)
  (a : option Alerter) (ops : list (op T)) :
  1 <= n <= max_int ->
  len (written ops) <= 2 ^ 64 ->
  exists d rt rs,
    run_new (S fuel) n a ops = Ok (d, rt, rs) /\
    Forall (answer_from (written ops)) rs.
Proof.
  intros Hn Hm.
  pose proof (NewManyToOne_ok (T:=T) n a ltac:(lia)) as Hnew.
  pose proof (NewManyToOne_inv n a _ ltac:(lia) Hnew) as HI0.
  destruct (run_answers fuel n ops [] _ rt0 HI0)
    as (d & rt & rs & Hrun & Hrs).
  { change (len (A:=GenericDataType T) []) with 0. lia. }
  exists d, rt, rs. split; [| exact Hrs].
  unfold run_new. rewrite Hnew. exact Hrun.
Qed.

Lemma answers_were_written_mixed_run :
  exists d rt rs,
    run_new 1 4 None
      ([OpTryNext; OpSet (Some 9); OpTryNext] ++ six_writes ++
       [OpTryNext; OpTryNext]) = Ok (d, rt, rs) /\
    Forall (answer_from (written
              ([OpTryNext; OpSet (Some 9); OpTryNext] ++ six_writes ++
               [OpTryNext; OpTryNext]))) rs.
Proof.
  apply (answers_were_written 0 4 None
           ([OpTryNext; OpSet (Some 9); OpTryNext] ++ six_writes ++
            [OpTryNext; OpTryNext]));
    vm_compute; repeat split; congruence.
Defined.

(** X9. No collision without a second writer: in any run on a fresh
    engine with at most [2^64] writes, the trace holds alerts only, never a
    collision line, and the write index is the number of writes less one:
    no [Set] has skipped a sequence number. *)
Theorem sequential_runs_never_collide {T : Type} (fuel : nat) (n : Z)
  (a : option Alerter) (ops : list (op T)) :
  1 <= n <= max_int ->
  len (written ops) <= 2 ^ 64 ->
  exists d rt rs,
    run_new (S fuel) n a ops = Ok (d, rt, rs) /\
    (forall line, ~ In (Println line) (events rt)) /\
    writeIndex d = uint64 (len (written ops) - 1).
Proof.
  intros Hn Hm.
  pose proof (NewManyToOne_ok (T:=T) n a ltac:(lia)) as Hnew.
  pose proof (NewManyToOne_inv n a _ ltac:(lia) Hnew) as HI0.
  destruct (run_inv fuel n ops [] _ rt0 HI0) as (d & rt & rs & Hrun & HI).
  { change (len (A:=GenericDataType T) []) with 0. lia. }
  rewrite app_nil_l in HI. destruct HI as [_ _ _ Hw _ _ Hal].
  exists d, rt, rs. split; [| split; [| exact Hw]].
  - unfold run_new. rewrite Hnew. exact Hrun.
  - intros line Hin. unfold alerts_within in Hal.
    rewrite Forall_forall in Hal. apply list_elem_of_In in Hin.
    destruct (Hal _ Hin) as (k & Hk & _). discriminate Hk.
Qed.

Lemma sequential_runs_never_collide_two_laps :
  exists d rt rs,
    run_new 1 4 None (six_writes ++ [OpTryNext] ++ six_writes)
      = Ok (d, rt, rs) /\
    (forall line, ~ In (Println line) (events rt)) /\
    writeIndex d = uint64 (12 - 1).
Proof.
  apply (sequential_runs_never_collide 0 4 None
           (six_writes ++ [OpTryNext] ++ six_writes));
    vm_compute; repeat split; congruence.
Defined.

(** X10. A reader that keeps up loses nothing: on a fresh engine of any
    capacity, one included, a run in which every [Set] is followed by one
    [TryNext] hands out every value, in order, each with [true], and the
    trace stays empty. *)
Theorem write_read_pairs_deliver_all {T : Type} (fuel : nat) (n : Z)
  (a : option Alerter) (vs : list (GenericDataType T)) :
  1 <= n <= max_int ->
  len vs < 2 ^ 64 ->
  exists d rt,
    run_new (S fuel) n a (write_read_pairs vs) =
      Ok (d, rt, map (fun v => (v, true)) vs) /\
    events rt = [].
Proof.
  intros Hn Hm.
  pose proof (NewManyToOne_ok (T:=T) n a ltac:(lia)) as Hnew.
  pose proof (NewManyToOne_inv n a _ ltac:(lia) Hnew) as HI0.
  destruct (run_write_read_pairs fuel n vs [] _ rt0 HI0)
    as (d & rt & Hrun & He).
  { reflexivity. }
  { change (len (A:=GenericDataType T) []) with 0. lia. }
  exists d, rt. split; [| exact He].
  unfold run_new. rewrite Hnew. exact Hrun.
Qed.

Lemma write_read_pairs_deliver_all_capacity_one :
  exists d rt,
    run_new 1 1 None (write_read_pairs six_values) =
      Ok (d, rt, map (fun v => (v, true)) six_values) /\
    events rt = [].
Proof.
  apply (write_read_pairs_deliver_all 0 1 None six_values);
    vm_compute; repeat split; congruence.
Defined.

(** X11. Overrun, then drain: on a fresh engine of capacity [n], after
    [m > n] writes and no read, [n] calls of [TryNext] hand out the last [n]
    values written, in the order of the writes, each with [true]; the
    alerter is called once in the whole run, by the first read, with
    [m - n]; and the read index ends at [m]. *)
Theorem overrun_then_drain {T : Type} (fuel : nat) (n : Z)
  (a : option Alerter) (vs : list (GenericDataType T)) :
  1 <= n <= max_int ->
  n < len vs < 2 ^ 64 ->
  len vs - n < 2 ^ 63 ->
  exists d rt,
    run_new (S fuel) n a (map OpSet vs ++ replicate (Z.to_nat n) OpTryNext) =
      Ok (d, rt,
          map (fun v => (v, true)) (drop (Z.to_nat (len vs - n)) vs)) /\
    events rt = [Alert (len vs - n)] /\
    readIndex d = len vs.
Proof.
  intros Hn Hm Hint.
  destruct (new_then_writes fuel n a vs ltac:(lia) ltac:(lia))
    as (d0 & d1 & rt1 & Hnew & Hrun & HI & Hr & He).
  pose proof HI as [_ Hlen _ _ _ Hslots _].
  destruct (slot_at (buffer d1) (readIndex d1 mod n)) as [s Hs].
  { rewrite Hr, Hlen. rewrite Z.mod_0_l by lia. lia. }
  pose proof (Hslots _ _ Hs) as Hp.
  rewrite Hr, Z.mod_0_l, Z2Nat.id in Hp by lia.
  destruct s as [p|]; simpl in Hp; [| lia].
  destruct (TryNext_lapped n vs d1 rt1 p HI Hs ltac:(lia))
    as (v & Hv & _ & Hread).
  pose proof (TryNext_inv_at n vs d1 rt1 _ _ _ HI Hread) as HI2.
  rewrite uint64_small in HI2, Hread by lia.
  rewrite Hr, Z.sub_0_r, int_of_uint64_small in HI2, Hread by lia.
  destruct (run_reads_window (S fuel) n vs (Z.to_nat n - 1) _ _ HI2
              ltac:(lia)) as (d' & Hreads & Hr'); [simpl; lia .. |].
  exists d', (emit (Alert (len vs - n)) rt1).
  split; [| split; [simpl; rewrite He; reflexivity | exact Hr']].
  unfold run_new. rewrite Hnew. cbn [bind]. rewrite run_app, Hrun.
  cbn [bind]. replace (Z.to_nat n) with (S (Z.to_nat n - 1)) by lia.
  cbn [replicate run]. rewrite Hread. cbn [bind]. rewrite Hreads.
  cbn [bind readIndex with_readIndex app].
  rewrite (drop_S vs _ (Z.to_nat (len vs - n)) Hv). simpl.
  replace (Z.to_nat (len vs - n + 1)) with (S (Z.to_nat (len vs - n)))
    by lia.
  reflexivity.
Qed.

Lemma overrun_then_drain_six_writes :
  exists d rt,
    run_new 1 4 None (map OpSet six_values ++ replicate (Z.to_nat 4) OpTryNext) =
      Ok (d, rt,
          map (fun v => (v, true))
            (drop (Z.to_nat (len six_values - 4)) six_values)) /\
    events rt = [Alert (len six_values - 4)] /\
    readIndex d = len six_values.
Proof.
  apply (overrun_then_drain 0 4 None six_values);
    vm_compute; repeat split; congruence.
Defined.

(** X12. What a drained reader gets, in general: after any run on a
    fresh engine, when the read index has reached the number of writes and
    at least [n] values have been written, [TryNext] does not answer
    [false]: it hands out, with [true] and without an alert, the value
    written [n] writes ago, and moves the read index past the writes. *)
Theorem drained_reader_gets_old_value {T : Type} (fuel : nat) (n : Z)
  (a : option Alerter) (ops : list (op T)) (d : ManyToOne T) (rt : runtime)
  (rs : list (GenericDataType T * bool)) :
  1 <= n <= max_int ->
  len (written ops) <= 2 ^ 64 ->
  run_new (S fuel) n a ops = Ok (d, rt, rs) ->
  readIndex d = len (written ops) ->
  n <= len (written ops) ->
  exists v,
    written ops !! Z.to_nat (len (written ops) - n) = Some v /\
    TryNext d rt =
      Ok (with_readIndex d (uint64 (len (written ops) + 1)), rt, (v, true)).
Proof.
  intros Hn Hm Hrun Hr Hfull.
  pose proof (run_new_inv fuel n a ops d rt rs Hn Hm Hrun) as HI.
  pose proof HI as [Hn' Hlen _ _ _ Hslots _].
  pose proof (Z.mod_pos_bound (readIndex d) n Hn') as Hidx.
  destruct (slot_at (buffer d) (readIndex d mod n)) as [s Hs]; [lia |].
  pose proof (Hslots _ _ Hs) as Hp. rewrite Z2Nat.id in Hp by lia.
  destruct s as [p|]; simpl in Hp; [| lia].
  destruct Hp as (Hmod & Hrange & Hlast & Hval).
  pose proof (same_residue_apart n (readIndex d) (seq (pointee p)) Hn'
                (eq_sym Hmod) ltac:(lia)) as Hgap.
  assert (Hseq : seq (pointee p) = len (written ops) - n) by lia.
  exists (data (pointee p)). split; [rewrite <- Hseq; exact Hval |].
  rewrite <- Hr. apply TryNext_plain; [| lia]. rewrite Hlen. exact Hs.
Qed.

Lemma drained_reader_gets_old_value_six_writes :
  run_new 1 4 None (six_writes ++ replicate 4 OpTryNext) =
    Ok (with_readIndex lapped_engine 6,
        {| next_addr := 6; events := [Alert 2] |},
        [(Some 2, true); (Some 3, true); (Some 4, true); (Some 5, true)]) /\
  exists v,
    written (six_writes ++ replicate 4 OpTryNext) !! Z.to_nat (6 - 4)
      = Some v /\
    TryNext (with_readIndex lapped_engine 6)
      {| next_addr := 6; events := [Alert 2] |} =
      Ok (with_readIndex (with_readIndex lapped_engine 6) (uint64 (6 + 1)),
          {| next_addr := 6; events := [Alert 2] |}, (v, true)).
Proof.
  split; [reflexivity |].
  apply (drained_reader_gets_old_value 0 4 None
           (six_writes ++ replicate 4 OpTryNext)
           (with_readIndex lapped_engine 6)
           {| next_addr := 6; events := [Alert 2] |}
           [(Some 2, true); (Some 3, true); (Some 4, true); (Some 5, true)]);
    vm_compute; repeat split; congruence.
Defined.
